(** * cf-cache: a pull-style response cache on an object store with edge purge

    A shallow embedding of [packages/cf-cache/src]: the helpers of [util.ts]
    ([chunkArray], [_getKey], [serializeHTTPMetadata], [parseHTTPMetadata]) and
    the class [CloudflareR2Cache] ([keys], [delete], [deleteAll], [deleteMany],
    [match], [put]), followed by the properties of the design document that
    are decided by that code.

    Layout: the JavaScript built-ins the code relies on, the platform
    interface (dates, URLs), [util.ts], the world the class talks to (bucket,
    call log, fault and scheduling oracles), the class itself, the vocabulary
    of the statements, a small platform to run the model on, and then the
    theorems.

    The class is asynchronous. Its calls to the store and to the edge are
    modelled as steps on a world that holds the bucket and a log of the calls
    made; an environment decides which calls fail and in which order the
    batch deletes joined by [Promise.all] settle, so a statement proved for
    every environment holds for every interleaving and every failure. What a
    call returns is stated for runs in which the calls it depends on are
    answered; what is thrown otherwise is part of the model. *)

From Stdlib Require Import ZArith NArith Ascii String List Lia.
From Stdlib Require Import Decimal DecimalString DecimalN.
From stdpp Require Import base option list gmap strings fin_maps.

(* ===================================================================== *)
(** * JavaScript built-ins                                                *)
(* ===================================================================== *)

Module JS.

(** ASCII lower-casing of one character and of a string: header names are
    case-insensitive and kept lower-cased by [Headers]. *)
Definition lower_ascii (c : ascii) : ascii :=
  let n := N_of_ascii c in
  if ((65 <=? n) && (n <=? 90))%N then ascii_of_N (n + 32) else c.

Fixpoint lower (s : string) : string :=
  match s with
  | EmptyString => EmptyString
  | String c s' => String (lower_ascii c) (lower s')
  end.

(** Truthiness of a string: only the empty string is falsy. *)
Definition truthy (s : string) : bool :=
  match s with
  | EmptyString => false
  | String _ _ => true
  end.

(** [v || undefined] for [v : string | null]: the empty string and [null]
    both become [undefined]. *)
Definition or_undefined (v : option string) : option string :=
  match v with
  | Some s => if truthy s then Some s else None
  | None => None
  end.

(** A value interpolated in a template literal: [undefined] prints as the
    word. *)
Definition interpolate (v : option string) : string :=
  match v with
  | Some s => s
  | None => "undefined"
  end.

(** [Number.prototype.toString()] on an integral number. *)
Definition digits (n : N) : string := NilZero.string_of_uint (N.to_uint n).

Definition Number_toString (z : Z) : string :=
  if (z <? 0)%Z then String "-" (digits (Z.to_N (- z))) else digits (Z.to_N z).

(** [parseInt(s)] with no radix: leading white space is skipped, a sign is
    read, a [0x]/[0X] prefix selects radix 16, and the longest prefix of
    digits is the value; no digit at all gives [NaN] ([None]). *)
Definition is_white (c : ascii) : bool :=
  let n := N_of_ascii c in
  ((n =? 32) || ((9 <=? n) && (n <=? 13)))%N.

Fixpoint trim_start (s : string) : string :=
  match s with
  | String c s' => if is_white c then trim_start s' else s
  | EmptyString => EmptyString
  end.

Definition digit_value (radix : N) (c : ascii) : option N :=
  let n := N_of_ascii c in
  let v :=
    if ((48 <=? n) && (n <=? 57))%N then Some (n - 48)%N
    else if ((97 <=? n) && (n <=? 122))%N then Some (n - 87)%N
    else if ((65 <=? n) && (n <=? 90))%N then Some (n - 55)%N
    else None in
  match v with
  | Some d => if (d <? radix)%N then Some d else None
  | None => None
  end.

(** The value of the longest prefix of radix-[radix] digits of [s], starting
    from the accumulator [acc]; [seen] tells whether a digit was read. *)
Fixpoint scan_digits (radix : N) (s : string) (seen : bool) (acc : N) : option N :=
  match s with
  | String c s' =>
      match digit_value radix c with
      | Some d => scan_digits radix s' true (acc * radix + d)%N
      | None => if seen then Some acc else None
      end
  | EmptyString => if seen then Some acc else None
  end.

Definition strip_hex_prefix (s : string) : option string :=
  match s with
  | String "0" (String "x" r) => Some r
  | String "0" (String "X" r) => Some r
  | _ => None
  end.

Definition parse_magnitude (s : string) : option N :=
  match strip_hex_prefix s with
  | Some r => scan_digits 16 r false 0%N
  | None => scan_digits 10 s false 0%N
  end.

Definition parseInt (s : string) : option Z :=
  match trim_start s with
  | String "-" r => (fun n => (- Z.of_N n)%Z) <$> parse_magnitude r
  | String "+" r => Z.of_N <$> parse_magnitude r
  | r => Z.of_N <$> parse_magnitude r
  end.

End JS.

(* ===================================================================== *)
(** * The platform: dates, URLs and requests                              *)
(* ===================================================================== *)

(** What the runtime provides and the repository does not define: the [Date]
    object ([new Date(s)], [toUTCString]) and URL parsing ([new URL(s)],
    of which only [pathname] is read). *)
Class Platform := {
  Date : Type;
  Date_new : string -> Date;
  Date_toUTCString : Date -> string;
  URL_pathname : string -> string;
}.

(** [Headers]: a map from lower-cased names to values. [get] answers [null]
    ([None]) for a missing name; [set] replaces the value. Values are
    stored as they are given: the platform's [set] also removes white space
    at the ends of a value and refuses a value with a NUL, a line feed or a
    carriage return, which is left out here. *)
Abbreviation Headers := (gmap string string).

Definition Headers_get (h : Headers) (name : string) : option string :=
  h !! JS.lower name.

Definition Headers_set (h : Headers) (name value : string) : Headers :=
  <[JS.lower name := value]> h.

(** A [URL] object (its serialisation and its path) and a [Request] (its
    [url] string); [RequestInfo] is a [Request] or a string. *)
Record URL := { href : string; pathname : string }.

Record Request := { url : string }.

Inductive RequestInfo :=
| RString (s : string)
| RRequest (r : Request)
| RURL (u : URL).

(* ===================================================================== *)
(** * util.ts                                                             *)
(* ===================================================================== *)

(** [chunkArray(arr, size)]: general recursion on the remaining array, run
    here with fuel, for a [size] that is an integer. The fuel is the number
    of nested calls there is room for. The driver supplies [length arr + 1]
    calls, which is enough whenever [size > 0]; with [size = 0] and a
    non-empty array the source never reaches its base case and the fuel
    runs out ([None]). *)
Fixpoint chunkArray_rec {T} (fuel : nat) (arr : list T) (size : nat)
  : option (list (list T)) :=
  match fuel with
  | O => None
  | S fuel' =>
      if (size <? length arr)%nat
      then rest ← chunkArray_rec fuel' (drop size arr) size;
           Some (take size arr :: rest)
      else Some [arr]
  end.

Definition chunkArray {T} (arr : list T) (size : nat) : option (list (list T)) :=
  chunkArray_rec (S (length arr)) arr size.

Section Util.
Context `{Platform}.

(** [_getKey(request)]: a [Request] is replaced by the URL parsed from its
    [url], a [URL] answers its [pathname], and anything else (a string, or
    [undefined]) is returned as it is. *)
Definition _getKey (request : option RequestInfo) : option string :=
  match request with
  | Some (RRequest r) => Some (URL_pathname (url r))
  | Some (RURL u) => Some (pathname u)
  | Some (RString s) => Some s
  | None => None
  end.

(** [R2HTTPMetadata]: every field optional. *)
Record R2HTTPMetadata := {
  contentType : option string;
  contentLanguage : option string;
  contentDisposition : option string;
  contentEncoding : option string;
  cacheControl : option string;
  cacheExpiry : option Date;
}.

Definition serializeHTTPMetadata (headers : Headers) : R2HTTPMetadata :=
  let expires := Headers_get headers "expires" in
  {| cacheControl := JS.or_undefined (Headers_get headers "cache-control");
     cacheExpiry :=
       match expires with
       | Some e => if JS.truthy e then Some (Date_new e) else None
       | None => None
       end;
     contentType := JS.or_undefined (Headers_get headers "content-type");
     contentDisposition :=
       JS.or_undefined (Headers_get headers "content-disposition");
     contentEncoding := JS.or_undefined (Headers_get headers "content-encoding");
     contentLanguage := JS.or_undefined (Headers_get headers "content-language");
  |}.

(** [if (field) result.set(name, field)] for a string field. *)
Definition set_if_truthy (field : option string) (name : string)
    (result : Headers) : Headers :=
  match field with
  | Some v => if JS.truthy v then Headers_set result name v else result
  | None => result
  end.

Definition parseHTTPMetadata (headers : option R2HTTPMetadata) : Headers :=
  let result : Headers := ∅ in
  match headers with
  | None => result
  | Some m =>
      let result := set_if_truthy (cacheControl m) "Cache-Control" result in
      let result :=
        match cacheExpiry m with
        | Some d => Headers_set result "Expires" (Date_toUTCString d)
        | None => result
        end in
      let result := set_if_truthy (contentType m) "Content-Type" result in
      let result :=
        set_if_truthy (contentDisposition m) "Content-Disposition" result in
      let result := set_if_truthy (contentEncoding m) "Content-Encoding" result in
      let result := set_if_truthy (contentLanguage m) "Content-Language" result in
      result
  end.

End Util.

(* ===================================================================== *)
(** * The world of the cache: bucket, call log, oracles                   *)
(* ===================================================================== *)

(** What a call of the class can throw: the [Error] of the class itself,
    the errors of the [Response] constructor, and the failures of the store
    and of the purge endpoint, which carry the id of the failed call. *)
Inductive Exception :=
| Error (message : string)
| RangeError (message : string)
| TypeError (message : string)
| StoreError (call : nat)
| PurgeError (call : nat).

Inductive Completion (A : Type) :=
| Return (a : A)
| Throw (e : Exception).
Arguments Return {A} a.
Arguments Throw {A} e.

Definition map_completion {A B} (f : A -> B) (c : Completion A) : Completion B :=
  match c with
  | Return a => Return (f a)
  | Throw e => Throw e
  end.

Section World.
Context `{Platform}.

(** An object of the bucket as the R2 binding shows it. [get] answers it
    with its [body]; the descriptor [put] returns has none. *)
Record R2Object := {
  key : string;
  size : N;
  etag : string;
  httpEtag : string;
  uploaded : Date;
  httpMetadata : option R2HTTPMetadata;
  customMetadata : option (gmap string string);
  body : option (list Byte.byte);
}.

Record R2PutOptions := {
  put_httpMetadata : R2HTTPMetadata;
  put_customMetadata : gmap string string;
}.

(** The S3 client's shapes: [ObjectIdentifier] of a delete command (its
    [Key] is [string | undefined]), one page of a listing, and the output
    of a batch delete. *)
Record ObjectIdentifier := { Key : option string }.

Record ListObjectsV2Output := { Contents : option (list ObjectIdentifier) }.

Record DeleteObjectsOutput := { Deleted : option (list ObjectIdentifier) }.

(** The body handed to [JSON.stringify] for the purge endpoint, kept as the
    value that is serialised. *)
Inductive PurgeBody :=
| purge_everything (b : bool)
| files (urls : list string).

Record RequestInit := {
  method : string;
  headers : list (string * string);
  init_body : PurgeBody;
}.

(** Every call that leaves the class is logged. A call's id is its position
    in the log. A batch delete is logged when it is sent and again when its
    promise settles; the other calls are awaited on the spot. *)
Inductive Event :=
| R2_get_call (k : string)
| R2_put_call (k : string) (value : list Byte.byte) (o : R2PutOptions)
| S3_ListObjectsV2 (Bucket : string) (Prefix : option string) (page : nat)
| S3_DeleteObjects (Bucket : string) (Objects : list ObjectIdentifier)
| S3_DeleteObjects_settled (call : nat) (fulfilled : bool)
| fetch_call (input : string) (init : RequestInit).

Record World := {
  objects : gmap string R2Object;
  log : list Event;
}.

(** What the class cannot control: which calls fail ([fault], by call id),
    in which order the batch deletes in flight settle ([pick], consulted
    with the length of the log, chooses among those still in flight), and
    what the store stamps on a new object. *)
Record Env := {
  fault : nat -> bool;
  pick : nat -> nat;
  stamp_etag : list Byte.byte -> string;
  stamp_uploaded : nat -> Date;
}.

(** Computations of the class: a completion and the world it leaves. *)
Definition M (A : Type) : Type := World -> Completion A * World.

Definition ret {A} (a : A) : M A := fun w => (Return a, w).

Definition throw {A} (e : Exception) : M A := fun w => (Throw e, w).

Definition bind {A B} (m : M A) (k : A -> M B) : M B :=
  fun w =>
    match m w with
    | (Return a, w') => k a w'
    | (Throw e, w') => (Throw e, w')
    end.

Definition world : M World := fun w => (Return w, w).

Definition emit (e : Event) : M nat :=
  fun w => (Return (length (log w)),
            {| objects := objects w; log := log w ++ [e] |}).

Definition set_objects (o : gmap string R2Object) : M unit :=
  fun w => (Return tt, {| objects := o; log := log w |}).

End World.

Notation "'let*' x ':=' m 'in' k" := (bind m (fun x => k))
  (at level 10, x pattern, m at level 100, k at level 200).

(* ===================================================================== *)
(** * The store and the purge endpoint                                    *)
(* ===================================================================== *)

(** The two handles the class holds on its bucket: an S3 client, made from
    the connection parameters, and an R2 binding. In the model every client
    and every binding opens the one bucket of the world. *)
Record S3ClientConfig := {
  region : string;
  endpoint : string;
  accessKeyId : string;
  secretAccessKey : string;
}.

Record S3Client := { config : S3ClientConfig }.

Record R2Bucket := { binding : string }.

Section Services.
Context `{Platform}.
Variable env : Env.

(** [R2.get(key)]: the object with its body, or [null]. *)
Definition R2_get (R2 : R2Bucket) (k : string) : M (option R2Object) :=
  let* call := emit (R2_get_call k) in
  if fault env call then throw (StoreError call)
  else let* w := world in ret (objects w !! k).

(** [R2.put(key, value, options)]: the object is written (the last writer
    wins) and its descriptor returned. *)
Definition R2_put (R2 : R2Bucket) (k : string) (value : list Byte.byte)
    (o : R2PutOptions)
  : M R2Object :=
  let* call := emit (R2_put_call k value o) in
  if fault env call then throw (StoreError call)
  else
    let descriptor :=
      {| key := k;
         size := N.of_nat (length value);
         etag := stamp_etag env value;
         httpEtag := String (ascii_of_N 34) (stamp_etag env value)
                     +:+ String (ascii_of_N 34) EmptyString;
         uploaded := stamp_uploaded env call;
         httpMetadata := Some (put_httpMetadata o);
         customMetadata := Some (put_customMetadata o);
         body := None |} in
    let stored :=
      {| key := key descriptor; size := size descriptor;
         etag := etag descriptor; httpEtag := httpEtag descriptor;
         uploaded := uploaded descriptor;
         httpMetadata := httpMetadata descriptor;
         customMetadata := customMetadata descriptor;
         body := Some value |} in
    let* w := world in
    let* _ := set_objects (<[k := stored]> (objects w)) in
    ret descriptor.

(** The listing behind [paginateListObjectsV2]: the keys of the bucket
    under the prefix, cut into pages of [pageSize]; an empty listing is one
    page without [Contents]. *)
Definition has_prefix (p : option string) (k : string) : bool :=
  match p with
  | Some p => String.prefix p k
  | None => true
  end.

Fixpoint cut_pages (fuel pageSize : nat) (ks : list string) : list (list string) :=
  match fuel, ks with
  | S fuel', _ :: _ => take pageSize ks :: cut_pages fuel' pageSize (drop pageSize ks)
  | _, _ => []
  end.

Definition list_pages (client : S3Client) (w : World) (Prefix : option string)
    (pageSize : nat)
  : list ListObjectsV2Output :=
  let ks := List.filter (has_prefix Prefix) (map fst (map_to_list (objects w))) in
  match ks with
  | [] => [ {| Contents := None |} ]
  | _ => map (fun page => {| Contents := Some (map (fun k => {| Key := Some k |}) page) |})
             (cut_pages (length ks) pageSize ks)
  end.

(** [S3.send(new DeleteObjectsCommand(...))]: the request leaves at once;
    what comes back is a promise still pending. *)
Record Pending := {
  pending_call : nat;
  pending_objects : list ObjectIdentifier;
}.

Definition S3_send_DeleteObjects (client : S3Client) (Bucket : string)
    (Objects : list ObjectIdentifier) : M Pending :=
  let* call := emit (S3_DeleteObjects Bucket Objects) in
  ret {| pending_call := call; pending_objects := Objects |}.

(** The moment a batch delete settles: it fails, or it removes its keys
    and reports those that were there (the subset actually deleted; none
    reported leaves [Deleted] undefined). *)
Definition present (w : World) (o : ObjectIdentifier) : bool :=
  match Key o with
  | Some k => bool_decide (is_Some (objects w !! k))
  | None => false
  end.

Definition remove_key (o : ObjectIdentifier) (m : gmap string R2Object)
  : gmap string R2Object :=
  match Key o with
  | Some k => delete k m
  | None => m
  end.

Definition settle (p : Pending) : M DeleteObjectsOutput :=
  if fault env (pending_call p)
  then let* _ := emit (S3_DeleteObjects_settled (pending_call p) false) in
       throw (StoreError (pending_call p))
  else
    let* w := world in
    let gone := List.filter (present w) (pending_objects p) in
    let* _ := set_objects (foldr remove_key (objects w) (pending_objects p)) in
    let* _ := emit (S3_DeleteObjects_settled (pending_call p) true) in
    ret {| Deleted := match gone with [] => None | _ => Some gone end |}.

(** [await Promise.all(promises)]: the promises settle one at a time in the
    order the environment picks; the first rejection rejects the whole, and
    the requests still in flight are left behind. When all have fulfilled,
    the results stand in the order of the promises. *)
Fixpoint Promise_all_loop (fuel : nat) (inflight : list (nat * Pending))
    (results : list (option DeleteObjectsOutput))
  : M (list (option DeleteObjectsOutput)) :=
  match fuel with
  | O => ret results
  | S fuel' =>
      let* w := world in
      match inflight !! (pick env (length (log w)) mod length inflight)%nat with
      | Some (slot, p) =>
          let* r := settle p in
          Promise_all_loop fuel'
            (delete (pick env (length (log w)) mod length inflight)%nat inflight)
            (<[slot := Some r]> results)
      | None => ret results
      end
  end.

Definition Promise_all (promises : list Pending) : M (list DeleteObjectsOutput) :=
  let* results :=
    Promise_all_loop (length promises) (imap pair promises)
                     (replicate (length promises) None) in
  ret (omap id results).

(** [await fetch(input, init)]: it rejects only when the request itself
    fails; the HTTP status of the answer is not looked at. *)
Definition fetch (input : string) (init : RequestInit) : M unit :=
  let* call := emit (fetch_call input init) in
  if fault env call then throw (PurgeError call) else ret tt.

(** Sequencing a list of calls, left to right. *)
Fixpoint traverse {A B} (f : A -> M B) (l : list A) : M (list B) :=
  match l with
  | [] => ret []
  | a :: l' => let* b := f a in let* bs := traverse f l' in ret (b :: bs)
  end.

End Services.

(* ===================================================================== *)
(** * Responses                                                           *)
(* ===================================================================== *)

Record Response := {
  response_body : option (list Byte.byte);
  response_headers : Headers;
  status : Z;
  statusText : string;
}.

Record ResponseInit := {
  init_headers : Headers;
  init_status : option Z;
  init_statusText : string;
}.

Definition null_body_status (s : Z) : bool :=
  ((s =? 101) || (s =? 204) || (s =? 205) || (s =? 304))%Z.

(** [new Response(body, init)]: the status must be an integer from 200 to
    599 ([NaN] is not), and a status that allows no body must come with
    none. The status is read as the integer it is: the platform first takes
    it as an unsigned 16-bit integer, which changes nothing from 0 to
    65535. *)
Definition new_Response (b : option (list Byte.byte)) (init : ResponseInit)
  : Completion Response :=
  match init_status init with
  | None => Throw (RangeError "Invalid status code")
  | Some s =>
      if negb ((200 <=? s) && (s <=? 599))%Z
      then Throw (RangeError "Invalid status code")
      else if null_body_status s && bool_decide (is_Some b)
      then Throw (TypeError "Response with null body status cannot have body")
      else Return {| response_body := b;
                     response_headers := init_headers init;
                     status := s;
                     statusText := init_statusText init |}
  end.

(** [await response.arrayBuffer()]: the whole body, empty when there is
    none. *)
Definition arrayBuffer (r : Response) : list Byte.byte :=
  default [] (response_body r).

(* ===================================================================== *)
(** * class CloudflareR2Cache                                             *)
(* ===================================================================== *)

Module CloudflareR2Cache.

Record cfConfig := {
  origin : string;
  zoneId : string;
  apiToken : string;
}.

(** The options of the constructor. *)
Record CloudflareR2CacheOptions := {
  opt_s3config : S3ClientConfig;
  opt_R2 : R2Bucket;
  opt_bucket : string;
  opt_cfConfig : option cfConfig;
}.

(** The private fields of the class; [CFCache] is there when an edge
    configuration was given. *)
Record CFCache := {
  CF_origin : string;
  CF_url : string;
  CF_headers : list (string * string);
}.

Record t := {
  S3 : S3Client;
  R2 : R2Bucket;
  bucket : string;
  this_CFCache : option CFCache;
}.

Definition constructor (o : CloudflareR2CacheOptions) : t :=
  {| S3 := {| config := opt_s3config o |};
     R2 := opt_R2 o;
     bucket := opt_bucket o;
     this_CFCache :=
       match opt_cfConfig o with
       | Some c =>
           Some {| CF_origin := origin c;
                   CF_url := "https://api.cloudflare.com/client/v4/zones/"
                             +:+ zoneId c +:+ "/purge_cache";
                   CF_headers := [("Content-Type", "application/json");
                                  ("Authorization", "Bearer " +:+ apiToken c)] |}
       | None => None
       end |}.

Section Cache.
Context `{Platform}.
Variable env : Env.
Variable this : t.

(** [{ Key }] when [Key] is truthy, dropped otherwise. *)
Definition keep_keyed (o : ObjectIdentifier) : option ObjectIdentifier :=
  match Key o with
  | Some k => if JS.truthy k then Some {| Key := Some k |} else None
  | None => None
  end.

Definition truthy_key (o : ObjectIdentifier) : option string :=
  match Key o with
  | Some k => if JS.truthy k then Some k else None
  | None => None
  end.

(** The [for await] loop of [keys] over the pages still to come. *)
Fixpoint drain (Prefix : option string) (pages : list ListObjectsV2Output)
    (page : nat) (Objects : list ObjectIdentifier) : M (list ObjectIdentifier) :=
  match pages with
  | [] => ret Objects
  | p :: pages' =>
      let* call := emit (S3_ListObjectsV2 (bucket this) Prefix page) in
      if fault env call then throw (StoreError call)
      else drain Prefix pages' (S page)
                 (Objects ++ match Contents p with
                             | Some contents => omap keep_keyed contents
                             | None => []
                             end)
  end.

(** [keys(request?)]: every page of the listing under the prefix derived
    from [request] is drained, and the truthy keys are returned. *)
Definition keys (request : option RequestInfo) : M (list string) :=
  let* w := world in
  let paginator := list_pages (S3 this) w (_getKey request) 1000 in
  let* Objects := drain (_getKey request) paginator 0 [] in
  ret (omap truthy_key Objects).

(** The batch deletes of [deleteMany] and [deleteAll]: one command per
    chunk, all sent before any is awaited, joined by [Promise.all], and the
    [Deleted] lists of the outputs flattened. *)
Definition delete_chunks (chunks : list (list RequestInfo))
  : M (list ObjectIdentifier) :=
  let* promises :=
    traverse (fun chunk =>
                S3_send_DeleteObjects (S3 this) (bucket this)
                  (map (fun req => {| Key := _getKey (Some req) |}) chunk))
             chunks in
  let* outputs := Promise_all env promises in
  ret (flat_map (fun o => default [] (Deleted o)) outputs).

(** [deleteMany(requests)]: nothing for an empty list; otherwise the batch
    deletes in chunks of 1000, then, as the source has it, the purge of "the
    CF cache for the specified keys. We have to wait for the R2 cache to be
    purged before purging the CDN itself". ([chunkArray] cannot run out of
    fuel with size 1000; the branch is there for the type.) *)
Definition deleteMany (requests : list RequestInfo) : M (list ObjectIdentifier) :=
  if (length requests =? 0)%nat then ret []
  else
    match chunkArray requests 1000 with
    | None => throw (RangeError "Maximum call stack size exceeded")
    | Some chunks =>
        let* Deleted := delete_chunks chunks in
        let purgeKeys := map (fun req => _getKey (Some req)) requests in
        let* _ :=
          match this_CFCache this with
          | Some CFCache =>
              fetch env (CF_url CFCache)
                {| method := "POST";
                   headers := CF_headers CFCache;
                   init_body :=
                     files (map (fun pathname =>
                                   CF_origin CFCache +:+ JS.interpolate pathname)
                                purgeKeys) |}
          | None => ret tt
          end in
        ret Deleted
    end.

(** [delete(request)]. *)
Definition delete (request : RequestInfo) : M (list ObjectIdentifier) :=
  deleteMany [request].

(** [deleteAll()]: the keys of the whole bucket; nothing more when there is
    none; otherwise the batch deletes as in [deleteMany], then the purge of
    the entire CF cache. *)
Definition deleteAll : M (list ObjectIdentifier) :=
  let* keys := keys None in
  if (length keys =? 0)%nat then ret []
  else
    match chunkArray (map RString keys) 1000 with
    | None => throw (RangeError "Maximum call stack size exceeded")
    | Some chunks =>
        let* Deleted := delete_chunks chunks in
        let* _ :=
          match this_CFCache this with
          | Some CFCache =>
              fetch env (CF_url CFCache)
                {| method := "POST";
                   headers := CF_headers CFCache;
                   init_body := purge_everything true |}
          | None => ret tt
          end in
        ret Deleted
    end.

(** A computation that makes no call. *)
Definition lift {A} (c : Completion A) : M A := fun w => (c, w).

(** [match(request)]. [if (!key) throw] covers both [undefined] and the
    empty string; a miss is [undefined] ([None]). *)
Definition match_ (request : RequestInfo) : M (option Response) :=
  match _getKey (Some request) with
  | Some key =>
      if negb (JS.truthy key) then throw (Error "Invalid cache key from request.")
      else
        let* found := R2_get env (R2 this) key in
        match found with
        | None => ret None
        | Some object =>
            let customMetadata := customMetadata object in
            let headers := parseHTTPMetadata (httpMetadata object) in
            let headers := Headers_set headers "etag" (httpEtag object) in
            let headers :=
              Headers_set headers "Content-Length"
                          (JS.Number_toString (Z.of_N (size object))) in
            let headers :=
              Headers_set headers "Last-Modified"
                          (Date_toUTCString (uploaded object)) in
            let headers :=
              Headers_set headers "CDN-Cache-Control"
                          ("public, max-age="
                           +:+ JS.Number_toString (60 * 60 * 24 * 365)%Z) in
            let status :=
              match body object with Some _ => Some 200%Z | None => Some 304%Z end in
            let statusText := "" in
            let status :=
              match customMetadata ≫= (.!! "statusCode") with
              | Some c => if JS.truthy c then JS.parseInt c else status
              | None => status
              end in
            let statusText :=
              match customMetadata ≫= (.!! "statusText") with
              | Some t => if JS.truthy t then t else statusText
              | None => statusText
              end in
            let* response :=
              lift (new_Response (body object)
                      {| init_headers := headers;
                         init_status := status;
                         init_statusText := statusText |}) in
            ret (Some response)
        end
  | None => throw (Error "Invalid cache key from request.")
  end.

(** [put(request, response)]. *)
Definition put (request : Request) (response : Response) : M R2Object :=
  match _getKey (Some (RRequest request)) with
  | Some key =>
      if negb (JS.truthy key) then throw (Error "Invalid cache key from request.")
      else
        let body := arrayBuffer response in
        R2_put env (R2 this) key body
          {| put_httpMetadata := serializeHTTPMetadata (response_headers response);
             put_customMetadata :=
               {[ "statusCode" := JS.Number_toString (status response);
                  "statusText" := statusText response ]} |}
  | None => throw (Error "Invalid cache key from request.")
  end.

End Cache.

End CloudflareR2Cache.

(* ===================================================================== *)
(** * Vocabulary of the statements                                        *)
(* ===================================================================== *)

(** The number of chunks the source produces for an array of [n] items. *)
Definition chunk_count (n size : nat) : nat :=
  Nat.max 1 ((n + size - 1) / size).

(** The value of a decimal numeral read left to right from [acc]. *)
Fixpoint uint_value (d : uint) (acc : N) : N :=
  match d with
  | Nil => acc
  | D0 d => uint_value d (acc * 10 + 0)
  | D1 d => uint_value d (acc * 10 + 1)
  | D2 d => uint_value d (acc * 10 + 2)
  | D3 d => uint_value d (acc * 10 + 3)
  | D4 d => uint_value d (acc * 10 + 4)
  | D5 d => uint_value d (acc * 10 + 5)
  | D6 d => uint_value d (acc * 10 + 6)
  | D7 d => uint_value d (acc * 10 + 7)
  | D8 d => uint_value d (acc * 10 + 8)
  | D9 d => uint_value d (acc * 10 + 9)
  end%N.

(** The six header names the codec covers. *)
Definition codec_fields : list string :=
  ["cache-control"; "expires"; "content-type"; "content-disposition";
   "content-encoding"; "content-language"].

(** A header set restricted to the codec's fields. *)
Definition codec_headers (h : Headers) : Prop :=
  forall name, is_Some (h !! name) -> name ∈ codec_fields.

Section CodecVocabulary.
Context `{Platform}.

(** What becomes of a value through the codec: the [Expires] date is
    re-rendered in UTC form, the other values are kept. *)
Definition through_codec (name value : string) : string :=
  if decide (name = "expires") then Date_toUTCString (Date_new value) else value.

(** [h] with its [Expires] date in UTC form. *)
Definition utc_normalized (h : Headers) : Headers :=
  match h !! "expires" with
  | Some e => <["expires" := Date_toUTCString (Date_new e)]> h
  | None => h
  end.

(** Whether the metadata field that stands for the header [name] is
    defined. *)
Definition field_defined (m : R2HTTPMetadata) (name : string) : bool :=
  if decide (name = "cache-control") then bool_decide (is_Some (cacheControl m))
  else if decide (name = "expires") then bool_decide (is_Some (cacheExpiry m))
  else if decide (name = "content-type") then bool_decide (is_Some (contentType m))
  else if decide (name = "content-disposition")
       then bool_decide (is_Some (contentDisposition m))
  else if decide (name = "content-encoding")
       then bool_decide (is_Some (contentEncoding m))
  else if decide (name = "content-language")
       then bool_decide (is_Some (contentLanguage m))
  else false.

(** One step of [parseHTTPMetadata], read at the name [k]. *)
Definition at_name (name k : string) (v : option string) : option string :=
  if decide (name = k) then v else None.

End CodecVocabulary.

Section LogVocabulary.
Context `{Platform}.

Definition is_batch_delete (e : Event) : bool :=
  match e with S3_DeleteObjects _ _ => true | _ => false end.

Definition is_settled (e : Event) : bool :=
  match e with S3_DeleteObjects_settled _ _ => true | _ => false end.

Definition is_purge (e : Event) : bool :=
  match e with fetch_call _ _ => true | _ => false end.

(** The objects named by the batch deletes of a log, in the order sent. *)
Definition batch_objects (l : list Event) : list ObjectIdentifier :=
  flat_map (fun e => match e with S3_DeleteObjects _ os => os | _ => [] end) l.

(** What a call added to the log. *)
Definition emitted (before after : World) : list Event :=
  drop (length (log before)) (log after).

(** The pending promise of the [i]-th command sent from the world [w]. *)
Definition pending_at (w : World) (f : list RequestInfo -> list ObjectIdentifier)
    (i : nat) (chunk : list RequestInfo) : Pending :=
  {| pending_call := length (log w) + i; pending_objects := f chunk |}.

End LogVocabulary.

Section ProtocolVocabulary.
Context `{Platform}.

(** The object identifiers [deleteMany] and [deleteAll] build from a
    chunk. *)
Definition identifiers (chunk : list RequestInfo) : list ObjectIdentifier :=
  map (fun req => {| Key := _getKey (Some req) |}) chunk.

(** The batch delete command [deleteMany] and [deleteAll] send for a
    chunk. *)
Definition command (this : CloudflareR2Cache.t) (chunk : list RequestInfo) : Event :=
  S3_DeleteObjects (CloudflareR2Cache.bucket this) (identifiers chunk).

(** A cache without its edge configuration, and with one. *)
Definition without_edge (this : CloudflareR2Cache.t) : CloudflareR2Cache.t :=
  {| CloudflareR2Cache.S3 := CloudflareR2Cache.S3 this;
     CloudflareR2Cache.R2 := CloudflareR2Cache.R2 this;
     CloudflareR2Cache.bucket := CloudflareR2Cache.bucket this;
     CloudflareR2Cache.this_CFCache := None |}.

Definition with_edge (this : CloudflareR2Cache.t) (cf : CloudflareR2Cache.CFCache)
  : CloudflareR2Cache.t :=
  {| CloudflareR2Cache.S3 := CloudflareR2Cache.S3 this;
     CloudflareR2Cache.R2 := CloudflareR2Cache.R2 this;
     CloudflareR2Cache.bucket := CloudflareR2Cache.bucket this;
     CloudflareR2Cache.this_CFCache := Some cf |}.

(** The request a purge sends to the edge. *)
Definition purge_request (c : CloudflareR2Cache.CFCache) (b : PurgeBody) : Event :=
  fetch_call (CloudflareR2Cache.CF_url c)
    {| method := "POST";
       headers := CloudflareR2Cache.CF_headers c;
       init_body := b |}.

(** The absolute URL of an object: the origin followed by its key. *)
Definition absolute_url (c : CloudflareR2Cache.CFCache) (o : ObjectIdentifier)
  : string :=
  CloudflareR2Cache.CF_origin c +:+ JS.interpolate (Key o).

(** The URLs [deleteMany] names in its purge. *)
Definition purge_urls (c : CloudflareR2Cache.CFCache) (requests : list RequestInfo)
  : list string :=
  map (absolute_url c) (identifiers requests).

(** The purge at the end of an invalidation, if the edge is configured. *)
Definition purge_tail (this : CloudflareR2Cache.t) (b : PurgeBody) : list Event :=
  match CloudflareR2Cache.this_CFCache this with
  | Some c => [purge_request c b]
  | None => []
  end.

(** The size of a batch delete command. *)
Definition batch_size (e : Event) : nat :=
  match e with
  | S3_DeleteObjects _ os => length os
  | _ => 0
  end.

End ProtocolVocabulary.

Section HitVocabulary.
Context `{Platform}.

(** The four headers [match] computes. *)
Definition computed_fields : list string :=
  ["etag"; "content-length"; "last-modified"; "cdn-cache-control"].

(** The status of a hit before the stored one is looked at. *)
Definition default_status (o : R2Object) : option Z :=
  match body o with Some _ => Some 200%Z | None => Some 304%Z end.

(** The status and the status text [match] hands to the [Response]
    constructor for the stored object [o]. *)
Definition hit_status (o : R2Object) : option Z :=
  match customMetadata o ≫= (.!! "statusCode") with
  | Some c => if JS.truthy c then JS.parseInt c else default_status o
  | None => default_status o
  end.

Definition hit_statusText (o : R2Object) : string :=
  match customMetadata o ≫= (.!! "statusText") with
  | Some t => if JS.truthy t then t else ""
  | None => ""
  end.

(** A status the [Response] constructor accepts together with a body. *)
Definition status_with_body (s : Z) : Prop :=
  (200 <= s <= 599)%Z /\ null_body_status s = false.

End HitVocabulary.

Section FrameVocabulary.
Context `{Platform}.

(** No usable key comes out of key derivation: [undefined], or the empty
    string. *)
Definition no_key (k : option string) : Prop :=
  match k with
  | Some s => JS.truthy s = false
  | None => True
  end.

(** The run of a method without edge configuration ([bare]) against its
    run with one ([edge]), from the same world under the same environment:
    the bare run makes no purge request; both leave the same bucket; the
    edge run makes the same calls, followed at most by purge requests; and
    both end the same way unless the call that would be the purge fails. *)
Definition edge_transparent {A} (env : Env) (w : World) (bare edge : M A) : Prop :=
  (exists evs, log (bare w).2 = log w ++ evs
               /\ Forall (fun e => is_purge e = false) evs)
  /\ objects (edge w).2 = objects (bare w).2
  /\ (exists tail, log (edge w).2 = log (bare w).2 ++ tail
                   /\ Forall (fun e => is_purge e = true) tail)
  /\ (fault env (length (log (bare w).2)) = false -> (edge w).1 = (bare w).1).

End FrameVocabulary.

(* ===================================================================== *)
(** * Vocabulary of the further statements                                *)
(* ===================================================================== *)

Section MoreVocabulary.
Context `{Platform}.









(** The keys a list of requests stands for. *)
Definition requested (requests : list RequestInfo) : list string :=
  omap (fun req => _getKey (Some req)) requests.

(** The keys [keys] is to return from a bucket: those under the prefix that
    are not the empty string. *)
Definition listed (Prefix : option string) (k : string) : bool :=
  has_prefix Prefix k && JS.truthy k.

Definition is_listing (e : Event) : bool :=
  match e with S3_ListObjectsV2 _ _ _ => true | _ => false end.

Definition is_get (e : Event) : bool :=
  match e with R2_get_call _ => true | _ => false end.

(** The keys a list of object identifiers names. *)
Definition names (os : list ObjectIdentifier) : list string := omap Key os.

(** The objects of the batch deletes in flight. *)
Definition in_flight (inflight : list (nat * Pending)) : list ObjectIdentifier :=
  flat_map (fun sp => pending_objects sp.2) inflight.

(** What [deleteMany] and [deleteAll] share once the chunks are cut: the
    batch deletes, then the purge with the body [b] makes of the edge
    configuration. *)
Definition invalidate (env : Env) (this : CloudflareR2Cache.t)
    (chunks : list (list RequestInfo))
    (b : CloudflareR2Cache.CFCache -> PurgeBody)
  : M (list ObjectIdentifier) :=
  let* Deleted := CloudflareR2Cache.delete_chunks env this chunks in
  let* _ :=
    match CloudflareR2Cache.this_CFCache this with
    | Some CFCache =>
        fetch env (CloudflareR2Cache.CF_url CFCache)
          {| method := "POST";
             headers := CloudflareR2Cache.CF_headers CFCache;
             init_body := b CFCache |}
    | None => ret tt
    end in
  ret Deleted.

(** The results of [Promise.all] so far report only objects that satisfy
    [Q]. *)
Definition reports (Q : ObjectIdentifier -> Prop)
    (results : list (option DeleteObjectsOutput)) : Prop :=
  Forall (fun r => forall out, r = Some out -> Forall Q (default [] (Deleted out)))
         results.

(** What the loop of [keys] keeps of a page. *)
Definition page_objects (p : ListObjectsV2Output) : list ObjectIdentifier :=
  match Contents p with
  | Some contents => omap CloudflareR2Cache.keep_keyed contents
  | None => []
  end.

(** The listing calls for the pages [page], [page + 1], ... *)
Definition listing_calls (this : CloudflareR2Cache.t) (Prefix : option string)
    (page n : nat) : list Event :=
  map (S3_ListObjectsV2 (CloudflareR2Cache.bucket this) Prefix) (seq page n).

(** The keys of a bucket under a prefix, in the order of the listing. *)
Definition bucket_keys (w : World) (Prefix : option string) : list string :=
  List.filter (has_prefix Prefix) (map fst (map_to_list (objects w))).

End MoreVocabulary.

(* ===================================================================== *)
(** * A small platform to run the model on                                *)
(* ===================================================================== *)

(** The statements below hold for every [Platform]. To evaluate the model on
    concrete inputs one is fixed here: its [Date] is a count of seconds since
    the epoch ([None] for an invalid date) that reads the HTTP date format
    [Sun, 06 Nov 1994 08:49:37 GMT] and nothing else, and its URL parser
    reads [scheme://authority/path?query#fragment]. *)
Module Small.

Definition months : list string :=
  ["Jan"; "Feb"; "Mar"; "Apr"; "May"; "Jun";
   "Jul"; "Aug"; "Sep"; "Oct"; "Nov"; "Dec"].

Definition weekdays : list string :=
  ["Sun"; "Mon"; "Tue"; "Wed"; "Thu"; "Fri"; "Sat"].

Definition number (s : string) : option Z :=
  (fun d => Z.of_N (N.of_uint d)) <$> NilEmpty.uint_of_string s.

Fixpoint index_of (x : string) (l : list string) (i : Z) : option Z :=
  match l with
  | [] => None
  | y :: l' => if String.eqb x y then Some i else index_of x l' (i + 1)%Z
  end.

(** Days from 1970-01-01 to the civil date [y]-[m]-[d], and back. *)
Definition days_from_civil (y m d : Z) : Z :=
  let y := if (m <=? 2)%Z then (y - 1)%Z else y in
  let era := (y / 400)%Z in
  let yoe := (y - era * 400)%Z in
  let doy := ((153 * (m + (if (2 <? m)%Z then -3 else 9)) + 2) / 5 + d - 1)%Z in
  let doe := (yoe * 365 + yoe / 4 - yoe / 100 + doy)%Z in
  (era * 146097 + doe - 719468)%Z.

Definition civil_from_days (days : Z) : Z * Z * Z :=
  let z := (days + 719468)%Z in
  let era := (z / 146097)%Z in
  let doe := (z - era * 146097)%Z in
  let yoe := ((doe - doe / 1460 + doe / 36524 - doe / 146096) / 365)%Z in
  let y := (yoe + era * 400)%Z in
  let doy := (doe - (365 * yoe + yoe / 4 - yoe / 100))%Z in
  let mp := ((5 * doy + 2) / 153)%Z in
  let d := (doy - (153 * mp + 2) / 5 + 1)%Z in
  let m := if (mp <? 10)%Z then (mp + 3)%Z else (mp - 9)%Z in
  (if (m <=? 2)%Z then (y + 1)%Z else y, m, d).

Definition in_range (lo hi x : Z) : bool := ((lo <=? x) && (x <=? hi))%Z.

Definition parse_date (s : string) : option Z :=
  if negb ((String.length s =? 29)%nat
           && String.eqb (String.substring 3 2 s) ", "
           && String.eqb (String.substring 25 4 s) " GMT")
  then None
  else
    d ← number (String.substring 5 2 s);
    m ← index_of (String.substring 8 3 s) months 1;
    y ← number (String.substring 12 4 s);
    hh ← number (String.substring 17 2 s);
    mm ← number (String.substring 20 2 s);
    ss ← number (String.substring 23 2 s);
    if in_range 1 31 d && in_range 0 23 hh && in_range 0 59 mm && in_range 0 59 ss
    then Some (days_from_civil y m d * 86400 + hh * 3600 + mm * 60 + ss)%Z
    else None.

Definition pad (width : nat) (z : Z) : string :=
  let s := JS.Number_toString z in
  String.concat "" (replicate (width - String.length s) "0") +:+ s.

Definition utc_string (t : option Z) : string :=
  match t with
  | None => "Invalid Date"
  | Some t =>
      let days := (t / 86400)%Z in
      let secs := (t mod 86400)%Z in
      let '(y, m, d) := civil_from_days days in
      default "" (weekdays !! Z.to_nat ((days + 4) mod 7))
      +:+ ", " +:+ pad 2 d +:+ " "
      +:+ default "" (months !! Z.to_nat (m - 1)) +:+ " " +:+ pad 4 y +:+ " "
      +:+ pad 2 (secs / 3600) +:+ ":" +:+ pad 2 (secs mod 3600 / 60)
      +:+ ":" +:+ pad 2 (secs mod 60) +:+ " GMT"
  end.

(** The path of an absolute URL: what follows the authority, up to the
    query or the fragment; [/] when there is nothing. *)
Fixpoint after_authority_mark (s : string) : option string :=
  match s with
  | String ":" (String "/" (String "/" r)) => Some r
  | String _ r => after_authority_mark r
  | EmptyString => None
  end.

Fixpoint drop_until (stop : ascii -> bool) (s : string) : string :=
  match s with
  | String c r => if stop c then s else drop_until stop r
  | EmptyString => EmptyString
  end.

Fixpoint take_until (stop : ascii -> bool) (s : string) : string :=
  match s with
  | String c r => if stop c then EmptyString else String c (take_until stop r)
  | EmptyString => EmptyString
  end.

Definition is_one_of (cs : string) (c : ascii) : bool :=
  bool_decide (c ∈ String.list_ascii_of_string cs).

Definition path_of (s : string) : string :=
  let rest := default s (after_authority_mark s) in
  let p := take_until (is_one_of "?#") (drop_until (is_one_of "/?#") rest) in
  if JS.truthy p then p else "/".

#[export] Instance platform : Platform := {|
  Date := option Z;
  Date_new := parse_date;
  Date_toUTCString := utc_string;
  URL_pathname := path_of;
|}.

(** An environment in which no call fails, the batch deletes settle in the
    order they were sent, and the store stamps an object with the length of
    its body and the id of the call. *)
Definition calm : Env := {|
  fault := fun _ => false;
  pick := fun _ => 0;
  stamp_etag := fun b => JS.digits (N.of_nat (length b));
  stamp_uploaded := fun call => Some (Z.of_nat call);
|}.

(** A cache with an edge configuration, the same cache without one, and a
    world with an empty bucket and an empty log. *)
Definition edge : CloudflareR2Cache.cfConfig :=
  {| CloudflareR2Cache.origin := "https://example.com";
     CloudflareR2Cache.zoneId := "zone";
     CloudflareR2Cache.apiToken := "token" |}.

Definition connection : S3ClientConfig :=
  {| region := "auto";
     endpoint := "https://account.r2.cloudflarestorage.com";
     accessKeyId := "id";
     secretAccessKey := "secret" |}.

Definition cache : CloudflareR2Cache.t :=
  CloudflareR2Cache.constructor
    {| CloudflareR2Cache.opt_s3config := connection;
     CloudflareR2Cache.opt_R2 := {| binding := "R2" |};
     CloudflareR2Cache.opt_bucket := "cache";
       CloudflareR2Cache.opt_cfConfig := Some edge |}.

Definition origin_only : CloudflareR2Cache.t :=
  CloudflareR2Cache.constructor
    {| CloudflareR2Cache.opt_s3config := connection;
     CloudflareR2Cache.opt_R2 := {| binding := "R2" |};
     CloudflareR2Cache.opt_bucket := "cache";
       CloudflareR2Cache.opt_cfConfig := None |}.

Definition empty : World := {| objects := ∅; log := [] |}.

(** The configuration [cache] holds after construction. *)
Definition cache_edge : CloudflareR2Cache.CFCache :=
  {| CloudflareR2Cache.CF_origin := "https://example.com";
     CloudflareR2Cache.CF_url :=
       "https://api.cloudflare.com/client/v4/zones/zone/purge_cache";
     CloudflareR2Cache.CF_headers :=
       [("Content-Type", "application/json"); ("Authorization", "Bearer token")] |}.

(** [n] requests by path: [/0], [/1], ... *)
Definition paths (n : nat) : list RequestInfo :=
  map (fun i => RString ("/" +:+ JS.digits (N.of_nat i))) (seq 0 n).

(** An environment like [calm] in which, of the batch deletes in flight,
    the second settles first. *)
Definition shuffled : Env := {|
  fault := fun _ => false;
  pick := fun _ => 1;
  stamp_etag := stamp_etag calm;
  stamp_uploaded := stamp_uploaded calm;
|}.

(** The example of the design document: a page stored under
    [/blog/post-1], and a response for a page that is missing. *)
Definition post : Request := {| url := "https://example.com/blog/post-1" |}.

Definition hello : Response :=
  {| response_body := Some (String.list_byte_of_string "hello");
     response_headers := {[ "content-type" := "text/html" ]};
     status := 200;
     statusText := "" |}.

Definition missing : Request := {| url := "https://example.com/missing" |}.


Definition stored : World := (CloudflareR2Cache.put calm cache post hello empty).2.

Definition entry : R2Object :=
  {| key := "/blog/post-1";
     size := 5;
     etag := "5";
     httpEtag := String (ascii_of_N 34) ("5" +:+ String (ascii_of_N 34) "");
     uploaded := Some 0%Z;
     httpMetadata :=
       Some {| contentType := Some "text/html"; contentLanguage := None;
               contentDisposition := None; contentEncoding := None;
               cacheControl := None; cacheExpiry := None |};
     customMetadata := Some {[ "statusCode" := "200"; "statusText" := "" ]};
     body := Some (String.list_byte_of_string "hello") |}.

End Small.

(** More of the small platform: objects and responses for the further
    properties. *)
Module Small_more.

#[local] Existing Instance Small.platform.





Definition no_content : Response :=
  {| response_body := None;
     response_headers := ∅;
     status := 204;
     statusText := "No Content" |}.



End Small_more.

(* ===================================================================== *)
(** * The model on small inputs                                           *)
(* ===================================================================== *)

Example chunkArray_five_by_two :
  chunkArray [1; 2; 3; 4; 5] 2 = Some [[1; 2]; [3; 4]; [5]].
Proof. reflexivity. Qed.

Example chunkArray_exact_multiple :
  chunkArray [1; 2; 3; 4] 2 = Some [[1; 2]; [3; 4]].
Proof. reflexivity. Qed.

(** The empty array is one empty chunk, not no chunk. *)
Example chunkArray_empty : chunkArray (@nil nat) 3 = Some [[]].
Proof. reflexivity. Qed.

(** With size 0 the recursion of the source never ends. *)
Example chunkArray_size_zero : chunkArray [1; 2] 0 = None.
Proof. reflexivity. Qed.

Example parseInt_cases :
  JS.parseInt "404" = Some 404%Z
  /\ JS.parseInt " 12px" = Some 12%Z
  /\ JS.parseInt "-7" = Some (-7)%Z
  /\ JS.parseInt "0x1f" = Some 31%Z
  /\ JS.parseInt "" = None
  /\ JS.parseInt "abc" = None.
Proof. repeat split; reflexivity. Qed.

Example getKey_cases :
  _getKey (H := Small.platform)
    (Some (RRequest {| url := "https://example.com/blog/post-1?draft=1" |}))
  = Some "/blog/post-1"
  /\ _getKey (H := Small.platform)
       (Some (RURL {| href := "https://example.com/a/b"; pathname := "/a/b" |}))
     = Some "/a/b"
  /\ _getKey (H := Small.platform) (Some (RString "/already/a/key"))
     = Some "/already/a/key"
  /\ _getKey (H := Small.platform) None = None.
Proof. repeat split; reflexivity. Qed.

(** The HTTP date of RFC 7231 through [new Date] and [toUTCString]. *)
Example date_cases :
  Date_toUTCString (Platform := Small.platform)
    (Date_new "Sun, 06 Nov 1994 08:49:37 GMT")
  = "Sun, 06 Nov 1994 08:49:37 GMT"
  /\ Date_toUTCString (Platform := Small.platform) (Date_new "tomorrow")
     = "Invalid Date".
Proof. split; reflexivity. Qed.

(** [deleteAll] on a bucket that holds one page: the listing, the batch
    delete, its settlement, and the purge of everything. *)
Example deleteAll_one_object :
  CloudflareR2Cache.deleteAll (H := Small.platform) Small.calm Small.cache Small.stored
  = (Return [{| Key := Some "/blog/post-1" |}],
     {| objects := ∅;
        log := log Small.stored
               ++ [S3_ListObjectsV2 "cache" None 0;
                   S3_DeleteObjects "cache" [{| Key := Some "/blog/post-1" |}];
                   S3_DeleteObjects_settled 2 true;
                   purge_request Small.cache_edge (purge_everything true)] |}).
Proof. reflexivity. Qed.

(* ===================================================================== *)
(** * Properties of the built-ins                                         *)
(* ===================================================================== *)

Module JSFacts.
Import JS.

Lemma uint_value_pos d : forall p, uint_value d (Npos p) = Npos (Pos.of_uint_acc d p).
Proof.
  induction d; intros p; cbn [uint_value Pos.of_uint_acc]; try reflexivity;
    match goal with
    | |- uint_value _ ?a = N.pos (Pos.of_uint_acc _ ?q) =>
        replace a with (N.pos q) by lia; apply IHd
    end.
Qed.

Lemma uint_value_0 d : uint_value d 0 = N.of_uint d.
Proof.
  unfold N.of_uint.
  induction d; cbn [uint_value Pos.of_uint]; try reflexivity;
    try assumption; apply uint_value_pos.
Qed.

(** Scanning a printed numeral reads all of it. *)
Lemma scan_digits_uint d : forall acc,
  scan_digits 10 (NilEmpty.string_of_uint d) true acc = Some (uint_value d acc).
Proof.
  induction d; intros acc; cbn [NilEmpty.string_of_uint uint_value];
    try reflexivity; cbn [scan_digits]; apply IHd.
Qed.

Lemma scan_digits_digits n : scan_digits 10 (digits n) false 0 = Some n.
Proof.
  unfold digits. rewrite <- (DecimalN.Unsigned.of_to n) at 2.
  rewrite <- uint_value_0.
  destruct (N.to_uint n); try reflexivity;
    cbn [NilZero.string_of_uint NilEmpty.string_of_uint scan_digits uint_value];
    apply scan_digits_uint.
Qed.

Lemma strip_hex_prefix_digits n : strip_hex_prefix (digits n) = None.
Proof.
  unfold digits.
  destruct (N.to_uint n) as [|d|d|d|d|d|d|d|d|d|d]; try reflexivity.
  destruct d; reflexivity.
Qed.

Lemma parse_magnitude_digits n : parse_magnitude (digits n) = Some n.
Proof.
  unfold parse_magnitude. rewrite strip_hex_prefix_digits.
  apply scan_digits_digits.
Qed.

(** A printed magnitude starts with a digit: [parseInt] finds neither white
    space nor a sign in front of it. *)
Lemma parseInt_digits n : parseInt (digits n) = Z.of_N <$> parse_magnitude (digits n).
Proof.
  unfold digits.
  destruct (N.to_uint n); reflexivity.
Qed.

(** [parseInt(n.toString())] is [n] for every integer [n]. *)
Lemma parseInt_Number_toString z : parseInt (Number_toString z) = Some z.
Proof.
  unfold Number_toString. destruct (Z.ltb_spec z 0).
  - change (parseInt (String "-" (digits (Z.to_N (- z)))))
      with ((fun n => (- Z.of_N n)%Z) <$> parse_magnitude (digits (Z.to_N (- z)))).
    rewrite parse_magnitude_digits. cbn. f_equal. lia.
  - rewrite parseInt_digits, parse_magnitude_digits. cbn. f_equal. lia.
Qed.

Lemma truthy_digits n : truthy (digits n) = true.
Proof. unfold digits. destruct (N.to_uint n); reflexivity. Qed.

Lemma truthy_Number_toString z : truthy (Number_toString z) = true.
Proof.
  unfold Number_toString. destruct (z <? 0)%Z; [reflexivity | apply truthy_digits].
Qed.

End JSFacts.

(* ===================================================================== *)
(** * Properties of util.ts                                               *)
(* ===================================================================== *)

Section ChunkArray.
Context {T : Type}.
Implicit Types (arr : list T) (size fuel : nat).

(** One unfolding of the source's conditional. *)
Lemma chunkArray_rec_short fuel arr size :
  (length arr <= size)%nat -> chunkArray_rec (S fuel) arr size = Some [arr].
Proof.
  intros Hle. cbn [chunkArray_rec].
  destruct (Nat.ltb_spec size (length arr)); [lia | reflexivity].
Qed.

Lemma chunkArray_rec_long fuel arr size :
  (size < length arr)%nat ->
  chunkArray_rec (S fuel) arr size =
    (rest ← chunkArray_rec fuel (drop size arr) size; Some (take size arr :: rest)).
Proof.
  intros Hlt. cbn [chunkArray_rec].
  destruct (Nat.ltb_spec size (length arr)); [reflexivity | lia].
Qed.

Lemma chunk_count_step n size :
  (0 < size)%nat -> (size < n)%nat ->
  chunk_count n size = S (chunk_count (n - size) size).
Proof.
  intros Hpos Hlt. unfold chunk_count.
  replace (n + size - 1)%nat with ((n - size + size - 1) + 1 * size)%nat by lia.
  rewrite Nat.div_add by lia.
  assert (1 <= (n - size + size - 1) / size)%nat.
  { apply Nat.div_le_lower_bound; lia. }
  lia.
Qed.

(** With a positive size, [length arr + 1] calls are enough: the recursion
    returns, and its chunks partition the array. *)
Lemma chunkArray_rec_spec size :
  (0 < size)%nat ->
  forall fuel arr,
    (length arr < fuel)%nat ->
    exists chunks,
      chunkArray_rec fuel arr size = Some chunks
      /\ concat chunks = arr
      /\ Forall (fun c => (length c <= size)%nat) chunks
      /\ length chunks = chunk_count (length arr) size.
Proof.
  intros Hpos. induction fuel as [|fuel IH]; intros arr Hfuel; [lia|].
  destruct (Nat.lt_ge_cases size (length arr)) as [Hlt | Hle].
  - rewrite chunkArray_rec_long by assumption.
    destruct (IH (drop size arr)) as (rest & -> & Hcat & Hall & Hlen).
    { rewrite length_drop. lia. }
    exists (take size arr :: rest). cbn. repeat split.
    + rewrite Hcat. apply take_drop.
    + constructor; [rewrite length_take; lia | assumption].
    + rewrite Hlen, length_drop. symmetry. now apply chunk_count_step.
  - rewrite chunkArray_rec_short by assumption.
    exists [arr]. cbn. rewrite app_nil_r. repeat split.
    + constructor; [assumption | constructor].
    + unfold chunk_count.
      destruct (Nat.eq_dec (length arr) 0) as [-> | Hne].
      * rewrite Nat.div_small by lia. reflexivity.
      * assert ((length arr + size - 1) / size = 1)%nat as ->; [|reflexivity].
        replace (length arr + size - 1)%nat
          with ((length arr - 1) + 1 * size)%nat by lia.
        rewrite Nat.div_add, Nat.div_small by lia. reflexivity.
Qed.

Lemma chunkArray_spec arr size :
  (0 < size)%nat ->
  exists chunks,
    chunkArray arr size = Some chunks
    /\ concat chunks = arr
    /\ Forall (fun c => (length c <= size)%nat) chunks
    /\ length chunks = chunk_count (length arr) size.
Proof. intros Hpos. apply chunkArray_rec_spec; [assumption | lia]. Qed.

(** For a non-empty array the count is the rounded-up quotient. *)
Lemma chunk_count_ceil n size :
  (0 < size)%nat -> (1 <= n)%nat -> chunk_count n size = ((n + size - 1) / size)%nat.
Proof.
  intros Hpos Hn. unfold chunk_count.
  assert (1 <= (n + size - 1) / size)%nat; [|lia].
  apply Nat.div_le_lower_bound; lia.
Qed.

End ChunkArray.

(* ===================================================================== *)
(** * The metadata codec                                                  *)
(* ===================================================================== *)

(** Header names are literals: lower-casing them is a computation. *)
Ltac lower_literals :=
  repeat match goal with
         | |- context [JS.lower ?s] =>
             assert_fails (idtac; match s with context [?v] => is_var v end);
             let r := eval vm_compute in (JS.lower s) in
             change (JS.lower s) with r
         end.

Section Codec.
Context `{Platform}.

Lemma or_undefined_idem v : JS.or_undefined (JS.or_undefined v) = JS.or_undefined v.
Proof. destruct v as [[|c s]|]; reflexivity. Qed.

Lemma at_name_eq k v : at_name k k v = v.
Proof. unfold at_name. case_decide; congruence. Qed.

Lemma at_name_ne name k v : name ≠ k -> at_name name k v = None.
Proof. unfold at_name. intros. case_decide; congruence. Qed.

Lemma lookup_set_if_truthy field name result k :
  set_if_truthy field name result !! k =
    at_name (JS.lower name) k (JS.or_undefined field) ∪ result !! k.
Proof.
  unfold set_if_truthy, Headers_set, JS.or_undefined, at_name.
  destruct field as [v|]; [destruct (JS.truthy v)|];
    rewrite ?lookup_insert; repeat case_decide;
    try congruence; destruct (result !! k); reflexivity.
Qed.

Lemma lookup_set_expiry (expiry : option Date) (result : Headers) k :
  match expiry with
  | Some d => Headers_set result "Expires" (Date_toUTCString d)
  | None => result
  end !! k =
    at_name "expires" k (Date_toUTCString <$> expiry) ∪ result !! k.
Proof.
  unfold Headers_set, at_name. lower_literals.
  destruct expiry as [d|]; rewrite ?lookup_insert; repeat case_decide;
    try congruence; destruct (result !! k); reflexivity.
Qed.

Lemma through_codec_other name v : name ≠ "expires" -> through_codec name v = v.
Proof. unfold through_codec. intros. case_decide; congruence. Qed.

(** The codec, header by header: a covered header comes back if and only
    if its value is not empty, with its value passed [through_codec];
    nothing else comes back. *)
Lemma codec_lookup (h : Headers) k :
  parseHTTPMetadata (Some (serializeHTTPMetadata h)) !! k =
    if bool_decide (k ∈ codec_fields)
    then through_codec k <$> JS.or_undefined (h !! k)
    else None.
Proof.
  unfold parseHTTPMetadata, serializeHTTPMetadata.
  cbn [cacheControl cacheExpiry contentType contentDisposition
       contentEncoding contentLanguage].
  rewrite !lookup_set_if_truthy, lookup_set_expiry, lookup_set_if_truthy.
  rewrite !or_undefined_idem, lookup_empty.
  unfold Headers_get.
  lower_literals.
  destruct (decide (k ∈ codec_fields)) as [Hin | Hnin].
  - rewrite bool_decide_eq_true_2 by assumption.
    unfold codec_fields in Hin. rewrite !elem_of_cons, elem_of_nil in Hin.
    destruct Hin as [-> | [-> | [-> | [-> | [-> | [-> | []]]]]]];
      rewrite ?at_name_eq, ?at_name_ne by discriminate;
      match goal with
      | |- context [h !! ?n] => destruct (h !! n) as [[|c v]|]
      end; cbn; unfold through_codec; try case_decide;
      try discriminate; congruence.
  - rewrite bool_decide_eq_false_2 by assumption.
    unfold codec_fields in Hnin. rewrite !elem_of_cons, elem_of_nil in Hnin.
    rewrite !at_name_ne by (intros <-; tauto). reflexivity.
Qed.

(** Serialising reads only the covered headers, and reads an empty value
    as it reads a missing header. *)
Lemma serialize_ignores_empty (h : Headers) name :
  h !! name = Some "" ->
  serializeHTTPMetadata h = serializeHTTPMetadata (delete name h).
Proof.
  intros Hempty.
  assert (forall n, JS.or_undefined (Headers_get (delete name h) n)
                    = JS.or_undefined (Headers_get h n)) as Hor.
  { intros n. unfold Headers_get. rewrite lookup_delete.
    case_decide; [subst; rewrite Hempty|]; reflexivity. }
  unfold serializeHTTPMetadata. rewrite !Hor. f_equal.
  unfold Headers_get. rewrite lookup_delete.
  case_decide as Hn; [rewrite <- Hn, Hempty|]; reflexivity.
Qed.

End Codec.

(* ===================================================================== *)
(** * The calls, the join and the log                                     *)
(* ===================================================================== *)

Section ServiceFacts.
Context `{Platform}.
Variable env : Env.

Lemma world_eta (w : World) : {| objects := objects w; log := log w |} = w.
Proof. destruct w; reflexivity. Qed.

(** Sending the commands of all chunks only extends the log; the promises
    returned carry the positions of their commands. *)
Lemma send_all_spec client Bucket (f : list RequestInfo -> list ObjectIdentifier)
    chunks :
  forall w,
    traverse (fun chunk => S3_send_DeleteObjects client Bucket (f chunk)) chunks w =
      (Return (imap (pending_at w f) chunks),
       {| objects := objects w;
          log := log w ++ map (fun chunk => S3_DeleteObjects Bucket (f chunk)) chunks |}).
Proof.
  induction chunks as [|chunk chunks IH]; intros w.
  - cbn. rewrite app_nil_r, world_eta. reflexivity.
  - cbn [traverse]. unfold bind at 1. unfold S3_send_DeleteObjects at 1.
    unfold bind at 1. unfold emit at 1. cbn [ret].
    unfold bind at 1. rewrite IH. cbn [objects log ret].
    rewrite <- app_assoc. cbn [app map imap]. unfold ret. do 3 f_equal.
    + unfold pending_at. now rewrite Nat.add_0_r.
    + apply imap_ext. intros i x _. unfold pending_at. cbn.
      rewrite length_app. cbn. f_equal. lia.
Qed.

(** How [fetch] ends. *)
Lemma fetch_spec (input : string) (init : RequestInit) (w : World) :
  fetch env input init w =
    (if fault env (length (log w))
     then Throw (PurgeError (length (log w))) else Return tt,
     {| objects := objects w; log := log w ++ [fetch_call input init] |}).
Proof.
  unfold fetch, bind, emit. cbn.
  destruct (fault env (length (log w))); reflexivity.
Qed.

(** One promise settling. *)
Lemma settle_spec (p : Pending) (w : World) :
  exists c o,
    settle env p w =
      (c, {| objects := o;
             log := log w ++ [S3_DeleteObjects_settled (pending_call p)
                                (negb (fault env (pending_call p)))] |})
    /\ (fault env (pending_call p) = true -> c = Throw (StoreError (pending_call p)))
    /\ (fault env (pending_call p) = false -> exists r, c = Return r).
Proof.
  unfold settle. destruct (fault env (pending_call p)) eqn:E.
  - eexists _, _. split; [reflexivity|]. split; [reflexivity | discriminate].
  - eexists _, _. split; [reflexivity|]. split; [discriminate | eauto].
Qed.

Lemma elem_of_delete_or {A} (l : list A) i x y :
  l !! i = Some y -> x ∈ l -> x = y \/ x ∈ delete i l.
Proof.
  intros Hi Hx. rewrite <- (take_drop_middle l i y Hi) in Hx.
  rewrite delete_take_drop. rewrite elem_of_app, elem_of_cons in Hx.
  rewrite elem_of_app. tauto.
Qed.

(** The join. Whatever the order picked, the loop only adds settlements to
    the log; if it returns, every promise that was in flight has been
    fulfilled; if it throws, a call failed. *)
Lemma Promise_all_loop_spec :
  forall fuel inflight results w,
    length inflight <= fuel ->
    exists c w' evs,
      Promise_all_loop env fuel inflight results w = (c, w')
      /\ log w' = log w ++ evs
      /\ Forall (fun e => is_settled e = true) evs
      /\ match c with
         | Return _ =>
             forall slot p, (slot, p) ∈ inflight ->
               S3_DeleteObjects_settled (pending_call p) true ∈ evs
         | Throw e =>
             exists call, e = StoreError call /\ fault env call = true
             /\ S3_DeleteObjects_settled call false ∈ evs
         end.
Proof.
  induction fuel as [|fuel IH]; intros inflight results w Hfuel.
  - destruct inflight; [|cbn in Hfuel; lia].
    exists (Return results), w, []. cbn. rewrite app_nil_r.
    repeat split; [constructor | intros ? ? Hin; inversion Hin].
  - cbn [Promise_all_loop]. unfold bind at 1, world at 1.
    set (i := pick env (length (log w)) mod length inflight).
    destruct (inflight !! i) as [[slot p]|] eqn:Hi.
    + unfold bind at 1.
      destruct (settle_spec p w) as (c & o & -> & Hbad & Hgood).
      destruct (fault env (pending_call p)) eqn:Hf.
      * rewrite (Hbad eq_refl). eexists _, _, _. split; [reflexivity|].
        cbn. split; [reflexivity|]. split; [repeat constructor|].
        exists (pending_call p). repeat split; [assumption | set_solver].
      * destruct (Hgood eq_refl) as [r ->].
        edestruct (IH (delete i inflight) (<[slot := Some r]> results)) as
          (c' & w' & evs & -> & Hlog & Hall & Hc).
        { rewrite length_delete by eauto. lia. }
        exists c', w', (S3_DeleteObjects_settled (pending_call p) true :: evs).
        split; [reflexivity|]. cbn in Hlog. rewrite <- app_assoc in Hlog.
        split; [exact Hlog|]. split; [constructor; [reflexivity | exact Hall]|].
        destruct c' as [rs | e].
        -- intros slot' p' Hin.
           destruct (elem_of_delete_or _ _ _ _ Hi Hin) as [Heq | Hin'].
           ++ inversion Heq; subst. set_solver.
           ++ specialize (Hc _ _ Hin'). set_solver.
        -- destruct Hc as (call & -> & Hcall & Hin).
           exists call. repeat split; [assumption | set_solver].
    + exists (Return results), w, []. cbn. rewrite app_nil_r.
      split; [reflexivity|]. split; [reflexivity|]. split; [constructor|].
      intros slot p Hin. exfalso.
      apply lookup_ge_None in Hi.
      destruct inflight as [|x l]; [inversion Hin|].
      subst i. pose proof (Nat.mod_upper_bound (pick env (length (log w)))
                             (length (x :: l))) as Hlt.
      cbn in Hlt, Hi. lia.
Qed.

(** [await Promise.all(...)] as the class uses it. *)
Lemma Promise_all_spec (promises : list Pending) (w : World) :
  exists c w' evs,
    Promise_all env promises w = (c, w')
    /\ log w' = log w ++ evs
    /\ Forall (fun e => is_settled e = true) evs
    /\ match c with
       | Return _ =>
           forall p, p ∈ promises ->
             S3_DeleteObjects_settled (pending_call p) true ∈ evs
       | Throw e =>
           exists call, e = StoreError call /\ fault env call = true
           /\ S3_DeleteObjects_settled call false ∈ evs
       end.
Proof.
  unfold Promise_all, bind.
  destruct (Promise_all_loop_spec (length promises) (imap pair promises)
              (replicate (length promises) None) w)
    as (c & w' & evs & -> & Hlog & Hall & Hc).
  { now rewrite length_imap. }
  destruct c as [rs | e].
  - eexists _, _, evs. split; [reflexivity|]. repeat split; try assumption.
    intros p [i Hi]%list_elem_of_lookup. apply (Hc i p).
    apply elem_of_lookup_imap. eauto.
  - eexists _, _, evs. split; [reflexivity|]. repeat split; assumption.
Qed.

End ServiceFacts.

(* ===================================================================== *)
(** * The invalidation protocol                                           *)
(* ===================================================================== *)

Section Invalidation.
Context `{Platform}.
Variable env : Env.
Variable this : CloudflareR2Cache.t.

(** The batch deletes: every command is in the log before the first
    settlement, and a result comes back only when all have fulfilled. *)
Lemma delete_chunks_spec (chunks : list (list RequestInfo)) (w : World) :
  exists c w' evs,
    CloudflareR2Cache.delete_chunks env this chunks w = (c, w')
    /\ log w' = log w ++ map (command this) chunks ++ evs
    /\ Forall (fun e => is_settled e = true) evs
    /\ match c with
       | Return _ =>
           forall i, i < length chunks ->
             S3_DeleteObjects_settled (length (log w) + i) true ∈ evs
       | Throw e =>
           exists call, e = StoreError call /\ fault env call = true
           /\ S3_DeleteObjects_settled call false ∈ evs
       end.
Proof.
  unfold CloudflareR2Cache.delete_chunks. unfold bind at 1.
  change (traverse _ chunks w)
    with (traverse (fun chunk => S3_send_DeleteObjects
                                   (CloudflareR2Cache.S3 this)
                                   (CloudflareR2Cache.bucket this)
                                   (identifiers chunk)) chunks w).
  rewrite (send_all_spec (CloudflareR2Cache.S3 this)
             (CloudflareR2Cache.bucket this) identifiers).
  unfold bind at 1.
  match goal with
  | |- context [Promise_all env ?ps ?w1] =>
      destruct (Promise_all_spec env ps w1) as (c & w' & evs & -> & Hlog & Hall & Hc)
  end.
  cbn [log] in Hlog. rewrite <- app_assoc in Hlog.
  destruct c as [outputs | e].
  - eexists _, _, evs. split; [reflexivity|]. repeat split; try assumption.
    intros i Hi. destruct (lookup_lt_is_Some_2 chunks i Hi) as [chunk Hchunk].
    apply (Hc (pending_at w identifiers i chunk)).
    apply elem_of_lookup_imap. eauto.
  - eexists _, _, evs. split; [reflexivity|]. repeat split; assumption.
Qed.

(** How a purge call ends. *)
Lemma purge_spec (b : PurgeBody) (w : World) :
  forall c,
    CloudflareR2Cache.this_CFCache this = Some c ->
    fetch env (CloudflareR2Cache.CF_url c)
      {| method := "POST"; headers := CloudflareR2Cache.CF_headers c;
         init_body := b |} w =
      (if fault env (length (log w))
       then Throw (PurgeError (length (log w))) else Return tt,
       {| objects := objects w; log := log w ++ [purge_request c b] |}).
Proof.
  intros c _. unfold fetch, bind, emit. cbn.
  destruct (fault env (length (log w))); reflexivity.
Qed.

Lemma purge_urls_eq c requests :
  purge_urls c requests =
    map (fun pathname => CloudflareR2Cache.CF_origin c +:+ JS.interpolate pathname)
        (map (fun req => _getKey (Some req)) requests).
Proof. unfold purge_urls, identifiers, absolute_url. now rewrite !map_map. Qed.

(** The shape of every run of [deleteMany] on a non-empty list: the
    commands of all chunks, then settlements, then the purge, if any. A
    purge is there only when every command has been fulfilled. *)
Lemma deleteMany_spec (requests : list RequestInfo) (w : World) :
  requests ≠ [] ->
  exists chunks c w' evs tail,
    chunkArray requests 1000 = Some chunks
    /\ CloudflareR2Cache.deleteMany env this requests w = (c, w')
    /\ log w' = log w ++ map (command this) chunks ++ evs ++ tail
    /\ Forall (fun e => is_settled e = true) evs
    /\ ((tail = []
         /\ exists call, c = Throw (StoreError call) /\ fault env call = true
                         /\ S3_DeleteObjects_settled call false ∈ evs)
        \/ ((forall i, i < length chunks ->
                S3_DeleteObjects_settled (length (log w) + i) true ∈ evs)
            /\ tail = match CloudflareR2Cache.this_CFCache this with
                      | Some cf => [purge_request cf (files (purge_urls cf requests))]
                      | None => []
                      end
            /\ ((exists d, c = Return d)
                \/ (exists call, c = Throw (PurgeError call)
                                 /\ fault env call = true
                                 /\ tail ≠ [])))).
Proof.
  intros Hne. unfold CloudflareR2Cache.deleteMany.
  destruct requests as [|r rs] eqn:Hreq; [congruence|]. rewrite <- Hreq.
  replace (length requests =? 0) with false by (subst; reflexivity).
  destruct (chunkArray_spec requests 1000 ltac:(lia)) as (chunks & Hchunks & _).
  rewrite Hchunks. exists chunks.
  unfold bind at 1.
  destruct (delete_chunks_spec chunks w) as (c & w1 & evs & -> & Hlog & Hall & Hc).
  destruct c as [d | e].
  - destruct (CloudflareR2Cache.this_CFCache this) as [cf|] eqn:Hcf.
    + unfold bind at 1. rewrite (purge_spec _ w1 cf Hcf).
      rewrite purge_urls_eq.
      destruct (fault env (length (log w1))) eqn:Hf.
      * eexists _, _, evs, _. split; [reflexivity|]. split; [reflexivity|].
        cbn [log].
        split; [rewrite Hlog, <- !app_assoc; reflexivity|].
        split; [assumption|]. right.
        split; [assumption|]. split; [reflexivity|]. right.
        eexists. repeat split; [eassumption | discriminate].
      * eexists _, _, evs, _. split; [reflexivity|]. split; [reflexivity|].
        cbn [log].
        split; [rewrite Hlog, <- !app_assoc; reflexivity|].
        split; [assumption|]. right.
        split; [assumption|]. split; [reflexivity|]. left. eauto.
    + eexists _, _, evs, []. split; [reflexivity|]. split; [reflexivity|].
      cbn [ret bind]. rewrite Hlog, app_nil_r.
      split; [reflexivity|]. split; [assumption|]. right.
      split; [assumption|]. split; [reflexivity|]. left. eauto.
  - eexists _, _, evs, []. split; [reflexivity|]. split; [reflexivity|].
    rewrite Hlog, app_nil_r. split; [reflexivity|]. split; [assumption|].
    left. split; [reflexivity|]. destruct Hc as (call & -> & Hf & Hin). eauto.
Qed.

End Invalidation.

(* ===================================================================== *)
(** * keys and deleteAll                                                  *)
(* ===================================================================== *)

Section Listing.
Context `{Platform}.
Variable env : Env.
Variable this : CloudflareR2Cache.t.

(** The pages of a listing lose no key. *)
Lemma cut_pages_concat pageSize :
  0 < pageSize ->
  forall fuel ks, length ks <= fuel -> concat (cut_pages fuel pageSize ks) = ks.
Proof.
  intros Hpos. induction fuel as [|fuel IH]; intros ks Hfuel.
  - destruct ks; [reflexivity | cbn in Hfuel; lia].
  - destruct ks as [|k ks]; [reflexivity|].
    cbn [cut_pages concat]. rewrite IH; [apply take_drop|].
    rewrite length_drop. cbn [length] in *. lia.
Qed.

(** Draining the pages only lists: the bucket stays, and the log grows by
    listing calls. *)
Lemma drain_spec Prefix pages :
  forall page Objects w,
    exists c evs,
      CloudflareR2Cache.drain env this Prefix pages page Objects w =
        (c, {| objects := objects w; log := log w ++ evs |})
      /\ Forall (fun e => is_purge e = false) evs.
Proof.
  induction pages as [|p pages IH]; intros page Objects w.
  - exists (Return Objects), []. cbn. rewrite app_nil_r, world_eta.
    split; [reflexivity | constructor].
  - cbn [CloudflareR2Cache.drain]. unfold bind, emit. cbn [log objects].
    destruct (fault env (length (log w))).
    + eexists _, [_]. split; [reflexivity|]. repeat constructor.
    + match goal with
      | |- context [CloudflareR2Cache.drain env this Prefix pages ?n ?o ?w1] =>
          destruct (IH n o w1) as (c & evs & -> & Hall)
      end.
      cbn [log objects]. rewrite <- app_assoc.
      eexists _, (_ :: evs). split; [reflexivity|].
      constructor; [reflexivity | assumption].
Qed.

Lemma keys_spec (request : option RequestInfo) (w : World) :
  exists c evs,
    CloudflareR2Cache.keys env this request w =
      (c, {| objects := objects w; log := log w ++ evs |})
    /\ Forall (fun e => is_purge e = false) evs.
Proof.
  unfold CloudflareR2Cache.keys, bind, world.
  match goal with
  | |- context [CloudflareR2Cache.drain env this ?p ?ps ?n ?o w] =>
      destruct (drain_spec p ps n o w) as (c & evs & -> & Hall)
  end.
  destruct c; eexists _, evs; (split; [reflexivity | assumption]).
Qed.

(** On an empty bucket the listing is one page without contents, and
    [keys] finds nothing. *)
Lemma keys_empty (w : World) :
  objects w = ∅ ->
  CloudflareR2Cache.keys env this None w =
    (if fault env (length (log w))
     then Throw (StoreError (length (log w))) else Return [],
     {| objects := ∅;
        log := log w ++ [S3_ListObjectsV2 (CloudflareR2Cache.bucket this) None 0] |}).
Proof.
  intros Hempty. unfold CloudflareR2Cache.keys, bind, world, list_pages.
  rewrite Hempty, map_to_list_empty. cbn [map List.filter _getKey].
  cbn [CloudflareR2Cache.drain]. unfold bind, emit. cbn [log objects].
  rewrite Hempty.
  destruct (fault env (length (log w))); reflexivity.
Qed.

End Listing.

Section CodecClaims.
Context `{Platform}.

Lemma or_undefined_nonempty (v : option string) :
  v ≠ Some "" -> JS.or_undefined v = v.
Proof. destruct v as [[|c s]|]; [congruence | reflexivity | reflexivity]. Qed.

Lemma codec_headers_outside (h : Headers) k :
  codec_headers h -> k ∉ codec_fields -> h !! k = None.
Proof.
  intros Hh Hk. destruct (h !! k) eqn:E; [|reflexivity].
  exfalso. apply Hk, Hh. rewrite E. eauto.
Qed.

(** Both side conditions of the round trip can be checked by evaluation. *)
Lemma codec_headers_check (h : Headers) :
  bool_decide (map_Forall (fun k _ => k ∈ codec_fields) h) = true ->
  codec_headers h.
Proof.
  intros Hc%bool_decide_eq_true_1 name [v Hv]. exact (Hc name v Hv).
Qed.

Lemma nonempty_check (h : Headers) :
  bool_decide (map_Forall (fun _ v => v ≠ "") h) = true ->
  forall name, h !! name ≠ Some "".
Proof.
  intros Hc%bool_decide_eq_true_1 name Hv. exact (Hc name "" Hv eq_refl).
Qed.

Lemma utc_normalized_lookup (h : Headers) k :
  utc_normalized h !! k = through_codec k <$> h !! k.
Proof.
  unfold utc_normalized, through_codec.
  destruct (h !! "expires") as [e|] eqn:E.
  - rewrite lookup_insert. repeat case_decide; try congruence.
    + subst. rewrite E. reflexivity.
    + destruct (h !! k); reflexivity.
  - case_decide; [subst; rewrite E; reflexivity | destruct (h !! k); reflexivity].
Qed.

(** C4 (amended). For every header set [h] restricted to the six codec
    fields in which no present header has the empty string as its value,
    [parseHTTPMetadata (serializeHTTPMetadata h)] is [h] with its Expires
    date in UTC form; a field absent from [h] is absent from the result. *)
Theorem C4_roundtrip_nonempty (h : Headers) :
  codec_headers h ->
  (forall name, h !! name ≠ Some "") ->
  parseHTTPMetadata (Some (serializeHTTPMetadata h)) = utc_normalized h
  /\ (forall name, h !! name = None ->
                   parseHTTPMetadata (Some (serializeHTTPMetadata h)) !! name = None).
Proof.
  intros Hh Hne.
  assert (forall k, parseHTTPMetadata (Some (serializeHTTPMetadata h)) !! k
                    = utc_normalized h !! k) as Hk.
  { intros k. rewrite codec_lookup, utc_normalized_lookup.
    case_bool_decide as Hin.
    - now rewrite or_undefined_nonempty.
    - now rewrite codec_headers_outside. }
  split.
  - apply map_eq, Hk.
  - intros name Hnone. rewrite Hk, utc_normalized_lookup, Hnone. reflexivity.
Qed.

(** C10. A covered header whose value is the empty string is serialised
    to an undefined metadata field, the metadata being those of [h] without
    that header; so the round trip through the codec drops the header. *)
Theorem C10_empty_value_dropped (h : Headers) name :
  name ∈ codec_fields ->
  h !! name = Some "" ->
  field_defined (serializeHTTPMetadata h) name = false
  /\ serializeHTTPMetadata h = serializeHTTPMetadata (delete name h)
  /\ parseHTTPMetadata (Some (serializeHTTPMetadata h)) !! name = None.
Proof.
  intros Hin Hempty. split; [|split].
  - unfold codec_fields in Hin. rewrite !elem_of_cons, elem_of_nil in Hin.
    unfold serializeHTTPMetadata, Headers_get.
    destruct Hin as [-> | [-> | [-> | [-> | [-> | [-> | []]]]]]];
      unfold field_defined;
      repeat (case_decide; try congruence);
      cbn [cacheControl cacheExpiry contentType contentDisposition
           contentEncoding contentLanguage];
      lower_literals;
      rewrite Hempty; reflexivity.
  - now apply serialize_ignores_empty.
  - rewrite codec_lookup, bool_decide_eq_true_2, Hempty by assumption.
    reflexivity.
Qed.

End CodecClaims.

(** The round trip on a concrete header set: the values come back, the date
    in UTC form. *)
Lemma C4_roundtrip_nonempty_witness :
  let h : Headers :=
    {[ "cache-control" := "max-age=60"; "content-type" := "text/html";
       "expires" := "Sun, 06 Nov 1994 08:49:37 GMT" ]} in
  codec_headers h
  /\ (forall name, h !! name ≠ Some "")
  /\ parseHTTPMetadata (H := Small.platform) (Some (serializeHTTPMetadata h))
     = utc_normalized (H := Small.platform) h.
Proof.
  intros h.
  assert (codec_headers h) as Hh by (apply codec_headers_check; reflexivity).
  assert (forall name, h !! name ≠ Some "") as Hne
    by (apply nonempty_check; reflexivity).
  split; [exact Hh | split; [exact Hne |]].
  exact (proj1 (C4_roundtrip_nonempty (H := Small.platform) h Hh Hne)).
Defined.

(** C4 as stated fails: a header set within the six fields whose
    [cache-control] value is the empty string does not come back. *)
Lemma C4_counterexample_empty_value :
  codec_headers {[ "cache-control" := "" ]}
  /\ parseHTTPMetadata (H := Small.platform)
       (Some (serializeHTTPMetadata {[ "cache-control" := "" ]}))
     ≠ utc_normalized (H := Small.platform) {[ "cache-control" := "" ]}.
Proof.
  split.
  - apply codec_headers_check. reflexivity.
  - intros Heq. apply (f_equal (fun m => m !! "cache-control")) in Heq.
    rewrite codec_lookup, utc_normalized_lookup in Heq.
    rewrite lookup_singleton_eq in Heq. vm_compute in Heq. discriminate.
Qed.

Lemma C10_empty_value_dropped_witness :
  let h : Headers := {[ "cache-control" := "no-store"; "content-type" := "" ]} in
  "content-type" ∈ codec_fields
  /\ h !! "content-type" = Some ""
  /\ field_defined (H := Small.platform) (serializeHTTPMetadata h) "content-type" = false
  /\ serializeHTTPMetadata (H := Small.platform) h
     = serializeHTTPMetadata (delete "content-type" h)
  /\ parseHTTPMetadata (H := Small.platform) (Some (serializeHTTPMetadata h))
       !! "content-type" = None.
Proof.
  intros h.
  assert ("content-type" ∈ codec_fields) as Hin
    by (refine (bool_decide_unpack _ _); vm_compute; exact I).
  assert (h !! "content-type" = Some "") as Hempty by reflexivity.
  split; [exact Hin | split; [exact Hempty |]].
  exact (C10_empty_value_dropped (H := Small.platform) h "content-type" Hin Hempty).
Defined.

(* ===================================================================== *)
(** * deleteMany: chunks, join and purge                                  *)
(* ===================================================================== *)

Section LogFacts.
Context `{Platform}.

Lemma emitted_app (w w' : World) (evs : list Event) :
  log w' = log w ++ evs -> emitted w w' = evs.
Proof. intros Hlog. unfold emitted. rewrite Hlog. apply drop_app_length. Qed.

Lemma filter_none {A} (p q : A -> bool) (l : list A) :
  Forall (fun x => q x = true) l ->
  (forall x, q x = true -> p x = false) ->
  List.filter p l = [].
Proof.
  intros Hall Hpq. induction Hall as [|x l Hx _ IH]; [reflexivity|].
  cbn. now rewrite (Hpq x Hx).
Qed.

Lemma filter_all {A} (p : A -> bool) (l : list A) :
  Forall (fun x => p x = true) l -> List.filter p l = l.
Proof.
  intros Hall. induction Hall as [|x l Hx _ IH]; [reflexivity|].
  cbn. now rewrite Hx, IH.
Qed.

Lemma batch_objects_app (l1 l2 : list Event) :
  batch_objects (l1 ++ l2) = batch_objects l1 ++ batch_objects l2.
Proof. unfold batch_objects. apply flat_map_app. Qed.

Lemma batch_objects_none (l : list Event) :
  Forall (fun e => is_batch_delete e = false) l -> batch_objects l = [].
Proof.
  intros Hall. unfold batch_objects.
  induction Hall as [|e l He _ IH]; [reflexivity|].
  cbn [flat_map]. rewrite IH. destruct e; try discriminate; reflexivity.
Qed.

Lemma batch_objects_commands Bucket (chunks : list (list RequestInfo)) :
  batch_objects (map (fun chunk => S3_DeleteObjects Bucket (identifiers chunk)) chunks)
  = identifiers (concat chunks).
Proof.
  unfold batch_objects.
  induction chunks as [|c cs IH]; [reflexivity|].
  cbn [map flat_map concat]. rewrite IH. unfold identifiers. now rewrite map_app.
Qed.

Lemma settled_not_batch (l : list Event) :
  Forall (fun e => is_settled e = true) l ->
  Forall (fun e => is_batch_delete e = false) l.
Proof.
  intros Hall. eapply Forall_impl; [exact Hall|]. intros []; cbn; congruence.
Qed.

Lemma purge_not_batch (l : list Event) :
  Forall (fun e => is_purge e = true) l ->
  Forall (fun e => is_batch_delete e = false) l.
Proof.
  intros Hall. eapply Forall_impl; [exact Hall|]. intros []; cbn; congruence.
Qed.

End LogFacts.

Section DeleteManyClaims.
Context `{Platform}.
Variable env : Env.
Variable this : CloudflareR2Cache.t.

(** The shape of [deleteMany_spec], read on what the call emitted. *)
Lemma deleteMany_emitted (requests : list RequestInfo) (w : World) :
  requests ≠ [] ->
  exists chunks evs tail,
    chunkArray requests 1000 = Some chunks
    /\ emitted w (CloudflareR2Cache.deleteMany env this requests w).2
       = map (command this) chunks ++ evs ++ tail
    /\ Forall (fun e => is_settled e = true) evs
    /\ Forall (fun e => is_purge e = true) tail
    /\ (tail ≠ [] ->
        (forall i, i < length chunks ->
           S3_DeleteObjects_settled (length (log w) + i) true ∈ evs)
        /\ exists cf, CloudflareR2Cache.this_CFCache this = Some cf
                      /\ tail = [purge_request cf (files (purge_urls cf requests))])
    /\ ((forall n, fault env n = false) ->
        tail = purge_tail this
                 (files (match CloudflareR2Cache.this_CFCache this with
                         | Some cf => purge_urls cf requests
                         | None => []
                         end))).
Proof.
  intros Hne.
  destruct (deleteMany_spec env this requests w Hne)
    as (chunks & c & w' & evs & tail & Hchunks & -> & Hlog & Hall & Hcases).
  exists chunks, evs, tail. split; [assumption|].
  split; [now apply emitted_app|]. split; [assumption|].
  destruct Hcases as [[-> (call & -> & Hf & _)] | (Hjoin & -> & Hres)].
  - split; [constructor|]. split; [congruence|].
    intros Hcalm. rewrite Hcalm in Hf. discriminate.
  - unfold purge_tail.
    destruct (CloudflareR2Cache.this_CFCache this) as [cf|].
    + split; [repeat constructor|]. split; [|reflexivity].
      intros _. split; [assumption | eauto].
    + split; [constructor|]. split; [congruence | reflexivity].
Qed.

(** What the batch deletes of one call name, in the order sent: the keys
    of the requests, in their order. *)
Lemma deleteMany_batch_objects (requests : list RequestInfo) (w : World) :
  requests ≠ [] ->
  batch_objects (emitted w (CloudflareR2Cache.deleteMany env this requests w).2)
  = identifiers requests.
Proof.
  intros Hne.
  destruct (deleteMany_emitted requests w Hne)
    as (chunks & evs & tail & Hchunks & -> & Hall & Htail & _).
  destruct (chunkArray_spec requests 1000 ltac:(lia))
    as (chunks' & Hchunks' & Hcat & _).
  assert (chunks' = chunks) as -> by congruence.
  rewrite !batch_objects_app.
  rewrite (batch_objects_none evs) by now apply settled_not_batch.
  rewrite (batch_objects_none tail) by now apply purge_not_batch.
  rewrite !app_nil_r. unfold command.
  now rewrite batch_objects_commands, Hcat.
Qed.

(** C6. For every list of N >= 1 requests, [deleteMany] issues exactly
    ceil(N/1000) batch-delete calls; the chunk contents, concatenated in
    the order sent, are the keys of the requests in their order, nothing
    added and nothing left out; and no chunk has more than 1000 entries.
    This holds whatever the store answers: all commands are sent before
    any is awaited. *)
Theorem C6_chunk_partition (requests : list RequestInfo) (w : World) :
  1 <= length requests ->
  let evs := emitted w (CloudflareR2Cache.deleteMany env this requests w).2 in
  length (List.filter is_batch_delete evs) = (length requests + 999) / 1000
  /\ batch_objects evs = identifiers requests
  /\ Forall (fun e => batch_size e <= 1000) evs.
Proof.
  intros Hn evs. subst evs.
  assert (requests ≠ []) as Hne by (destruct requests; [cbn in Hn; lia | congruence]).
  pose proof (deleteMany_batch_objects requests w Hne) as Hobjects.
  revert Hobjects.
  destruct (deleteMany_emitted requests w Hne)
    as (chunks & evs & tail & Hchunks & -> & Hall & Htail & _).
  destruct (chunkArray_spec requests 1000 ltac:(lia))
    as (chunks' & Hchunks' & Hcat & Hsize & Hlen).
  assert (chunks' = chunks) as -> by congruence.
  assert (Forall (fun e => is_batch_delete e = true) (map (command this) chunks)) as Hcmd.
  { apply Forall_forall. intros e (c & -> & _)%list_elem_of_fmap. reflexivity. }
  intros Hobjects. split; [|split].
  - rewrite !List.filter_app, (filter_all _ _ Hcmd).
    rewrite (filter_none is_batch_delete is_settled evs Hall)
      by (intros []; cbn; congruence).
    rewrite (filter_none is_batch_delete is_purge tail Htail)
      by (intros []; cbn; congruence).
    rewrite !app_nil_r, length_map, Hlen.
    rewrite chunk_count_ceil by lia. f_equal. lia.
  - exact Hobjects.
  - rewrite !Forall_app. split; [|split].
    + apply Forall_forall. intros e (c & -> & Hc)%list_elem_of_fmap.
      cbn. unfold identifiers. rewrite length_map.
      rewrite Forall_forall in Hsize. now apply Hsize.
    + eapply Forall_impl; [exact Hall|]. intros []; cbn; intros; try lia; congruence.
    + eapply Forall_impl; [exact Htail|]. intros []; cbn; intros; try lia; congruence.
Qed.

(** C2. In every run of [deleteMany] on a non-empty list, whatever the
    order in which the batch deletes settle and whichever of them fail: if
    the call issues a purge request, at position [j] of the log, then the
    command of every chunk was sent, and its promise fulfilled, at
    positions before [j]. The URL list travels in that request, so it is
    computed after the join as well. *)
Theorem C2_purge_after_join (requests : list RequestInfo) (w : World)
    (j : nat) (input : string) (init : RequestInit) :
  requests ≠ [] ->
  let w' := (CloudflareR2Cache.deleteMany env this requests w).2 in
  length (log w) <= j ->
  log w' !! j = Some (fetch_call input init) ->
  forall i, i < chunk_count (length requests) 1000 ->
    exists Bucket Objects k,
      log w' !! (length (log w) + i) = Some (S3_DeleteObjects Bucket Objects)
      /\ length (log w) + i < k < j
      /\ log w' !! k = Some (S3_DeleteObjects_settled (length (log w) + i) true).
Proof.
  intros Hne w' Hj Hfetch i Hi. subst w'.
  destruct (deleteMany_spec env this requests w Hne)
    as (chunks & c & w' & evs & tail & Hchunks & Hrun & Hlog & Hall & Hcases).
  rewrite Hrun in *. cbn [snd] in *.
  destruct (chunkArray_spec requests 1000 ltac:(lia))
    as (chunks' & Hchunks' & _ & _ & Hlen).
  assert (chunks' = chunks) as -> by congruence.
  rewrite <- Hlen in Hi. clear Hchunks' Hlen.
  set (A := map (command this) chunks) in *.
  assert (length A = length chunks) as HA by (subst A; apply length_map).
  rewrite Hlog in Hfetch.
  rewrite lookup_app_r in Hfetch by assumption.
  apply lookup_app_Some in Hfetch as [Hin | [HjA Hfetch]].
  { subst A. rewrite list_lookup_fmap in Hin.
    destruct (chunks !! (j - length (log w))); discriminate. }
  apply lookup_app_Some in Hfetch as [Hin | [Hjevs Hfetch]].
  { rewrite Forall_lookup in Hall. specialize (Hall _ _ Hin). discriminate. }
  destruct Hcases as [[-> _] | (Hjoin & Htail & _)]; [discriminate|].
  assert (j = length (log w) + length A + length evs) as Hjpos.
  { apply lookup_lt_Some in Hfetch. rewrite Htail in Hfetch.
    destruct (CloudflareR2Cache.this_CFCache this); cbn in Hfetch; lia. }
  destruct (lookup_lt_is_Some_2 chunks i Hi) as [chunk Hchunk].
  destruct (proj1 (list_elem_of_lookup _ _) (Hjoin i Hi)) as [k Hk].
  pose proof (lookup_lt_Some _ _ _ Hk) as Hklt.
  exists (CloudflareR2Cache.bucket this), (identifiers chunk),
         (length (log w) + length A + k).
  split; [|split].
  - rewrite Hlog, lookup_app_r by lia.
    replace (length (log w) + i - length (log w)) with i by lia.
    rewrite lookup_app_l by lia. subst A.
    rewrite list_lookup_fmap, Hchunk. reflexivity.
  - lia.
  - rewrite Hlog, lookup_app_r by lia.
    rewrite lookup_app_r by lia. rewrite lookup_app_l by lia.
    rewrite <- Hk. f_equal. lia.
Qed.


End DeleteManyClaims.

(* ===================================================================== *)
(** * match and put                                                       *)
(* ===================================================================== *)

Section MatchPut.
Context `{Platform}.
Variable env : Env.
Variable this : CloudflareR2Cache.t.


(** [match] on a key the bucket holds, with a store that answers: the
    outcome is that of the [Response] constructor on the stored body, the
    decoded headers with the four computed ones set, and the status and
    status text of the hit. *)
Lemma match_spec (request : RequestInfo) (k : string) (o : R2Object) (w : World) :
  _getKey (Some request) = Some k ->
  JS.truthy k = true ->
  objects w !! k = Some o ->
  fault env (length (log w)) = false ->
  CloudflareR2Cache.match_ env this request w =
    (map_completion Some
       (new_Response (body o)
          {| init_headers :=
               Headers_set
                 (Headers_set
                    (Headers_set
                       (Headers_set (parseHTTPMetadata (httpMetadata o))
                          "etag" (httpEtag o))
                       "Content-Length" (JS.Number_toString (Z.of_N (size o))))
                    "Last-Modified" (Date_toUTCString (uploaded o)))
                 "CDN-Cache-Control" "public, max-age=31536000";
             init_status := hit_status o;
             init_statusText := hit_statusText o |}),
     {| objects := objects w; log := log w ++ [R2_get_call k] |}).
Proof.
  intros Hkey Htruthy Ho Hok. unfold CloudflareR2Cache.match_.
  rewrite Hkey, Htruthy. cbn [negb].
  unfold R2_get, bind, emit, world, ret. cbn [log objects].
  rewrite Hok. cbn [objects log]. rewrite Ho. unfold CloudflareR2Cache.lift.
  change (JS.Number_toString (60 * 60 * 24 * 365)) with "31536000".
  change ("public, max-age=" +:+ "31536000") with "public, max-age=31536000".
  unfold hit_status, hit_statusText, default_status.
  match goal with
  | |- context [new_Response ?b ?i] => destruct (new_Response b i)
  end; reflexivity.
Qed.

Lemma new_Response_headers b init r :
  new_Response b init = Return r ->
  response_headers r = init_headers init
  /\ Some (status r) = init_status init
  /\ statusText r = init_statusText init
  /\ response_body r = b.
Proof.
  unfold new_Response. destruct (init_status init) as [s|]; [|discriminate].
  repeat (match goal with |- context [if ?c then _ else _] => destruct c end;
          try discriminate).
  intros [= <-]. cbn. auto.
Qed.

Lemma new_Response_accepts b init s :
  init_status init = Some s ->
  status_with_body s ->
  new_Response b init =
    Return {| response_body := b; response_headers := init_headers init;
              status := s; statusText := init_statusText init |}.
Proof.
  intros Hs [[Hlo Hhi] Hnull]. unfold new_Response. rewrite Hs, Hnull.
  destruct (Z.leb_spec 200 s); [|lia]. destruct (Z.leb_spec s 599); [|lia].
  reflexivity.
Qed.

Lemma lookup_custom (a b : string) :
  ({[ "statusCode" := a; "statusText" := b ]} : gmap string string) !! "statusCode"
    = Some a
  /\ ({[ "statusCode" := a; "statusText" := b ]} : gmap string string) !! "statusText"
    = Some b.
Proof.
  split.
  - apply lookup_insert_eq.
  - rewrite lookup_insert_ne by discriminate. apply lookup_singleton_eq.
Qed.

(** C7. For every stored entry, [match] answers what the [Response]
    constructor makes of the stored body and of headers [init]; a response
    so made carries the store fingerprint as ETag, the stored size as
    Content-Length, the upload time as Last-Modified, and CDN-Cache-Control
    set to [public, max-age=31536000], whatever the stored metadata say;
    under every other name it carries what [parseHTTPMetadata] decodes from
    the stored [httpMetadata]. The constructor does return when the status
    of the hit is one it accepts with a body. *)
Theorem C7_hit_headers (request : RequestInfo) (k : string) (o : R2Object)
    (w : World) :
  _getKey (Some request) = Some k ->
  JS.truthy k = true ->
  objects w !! k = Some o ->
  fault env (length (log w)) = false ->
  exists init,
    CloudflareR2Cache.match_ env this request w =
      (map_completion Some (new_Response (body o) init),
       {| objects := objects w; log := log w ++ [R2_get_call k] |})
    /\ (forall r, new_Response (body o) init = Return r ->
          Headers_get (response_headers r) "ETag" = Some (httpEtag o)
          /\ Headers_get (response_headers r) "Content-Length"
             = Some (JS.Number_toString (Z.of_N (size o)))
          /\ Headers_get (response_headers r) "Last-Modified"
             = Some (Date_toUTCString (uploaded o))
          /\ Headers_get (response_headers r) "CDN-Cache-Control"
             = Some "public, max-age=31536000"
          /\ (forall name, JS.lower name ∉ computed_fields ->
                Headers_get (response_headers r) name
                = Headers_get (parseHTTPMetadata (httpMetadata o)) name))
    /\ (forall s, hit_status o = Some s -> status_with_body s ->
          exists r, new_Response (body o) init = Return r).
Proof.
  intros Hkey Htruthy Ho Hok.
  eexists. split; [apply (match_spec request k o w); assumption|]. split.
  - intros r [-> _]%new_Response_headers. cbn [init_headers].
    unfold Headers_get, Headers_set.
    lower_literals.
    repeat split.
    + do 3 (rewrite lookup_insert_ne by discriminate). apply lookup_insert_eq.
    + do 2 (rewrite lookup_insert_ne by discriminate). apply lookup_insert_eq.
    + rewrite lookup_insert_ne by discriminate. apply lookup_insert_eq.
    + apply lookup_insert_eq.
    + intros name Hname. unfold computed_fields in Hname.
      rewrite !not_elem_of_cons in Hname.
      destruct Hname as (? & ? & ? & ? & _).
      now rewrite !lookup_insert_ne by congruence.
  - intros s Hs Hacc. eexists.
    apply (new_Response_accepts _ _ s); [exact Hs | exact Hacc].
Qed.


End MatchPut.

(* ===================================================================== *)
(** * deleteAll on an empty bucket; a key that cannot be used              *)
(* ===================================================================== *)

Section Guards.
Context `{Platform}.
Variable env : Env.

Lemma deleteAll_empty (this : CloudflareR2Cache.t) (w : World) :
  objects w = ∅ ->
  CloudflareR2Cache.deleteAll env this w =
    (if fault env (length (log w))
     then Throw (StoreError (length (log w))) else Return [],
     {| objects := ∅;
        log := log w ++ [S3_ListObjectsV2 (CloudflareR2Cache.bucket this) None 0] |}).
Proof.
  intros Hempty. unfold CloudflareR2Cache.deleteAll. unfold bind at 1.
  rewrite (keys_empty env this w Hempty).
  destruct (fault env (length (log w))); reflexivity.
Qed.

(** C1 (amended). With or without an edge configuration, [deleteAll] on a
    bucket without keys makes one call, the listing: it issues no batch
    delete and no purge request, leaves the bucket empty, and returns the
    empty list when the listing is answered. *)
Theorem C1_deleteAll_empty_bucket (this : CloudflareR2Cache.t) (w : World) :
  objects w = ∅ ->
  let evs := emitted w (CloudflareR2Cache.deleteAll env this w).2 in
  evs = [S3_ListObjectsV2 (CloudflareR2Cache.bucket this) None 0]
  /\ length (List.filter is_batch_delete evs) = 0
  /\ length (List.filter is_purge evs) = 0
  /\ objects (CloudflareR2Cache.deleteAll env this w).2 = ∅
  /\ (fault env (length (log w)) = false ->
      (CloudflareR2Cache.deleteAll env this w).1 = Return []).
Proof.
  intros Hempty evs. subst evs.
  rewrite (deleteAll_empty this w Hempty). cbn [fst snd].
  unfold emitted. cbn [log objects]. rewrite drop_app_length.
  repeat split. now intros ->.
Qed.

End Guards.

(** The run behind C1 as it was stated: an edge configuration is present, the
    bucket is empty, and [deleteAll] issues no purge request where one was
    claimed. *)
Lemma C1_counterexample_no_purge :
  is_Some (CloudflareR2Cache.this_CFCache Small.cache)
  /\ objects (H := Small.platform) Small.empty = ∅
  /\ CloudflareR2Cache.deleteAll Small.calm Small.cache Small.empty
     = (Return [],
        {| objects := ∅; log := [S3_ListObjectsV2 "cache" None 0] |})
  /\ length (List.filter is_purge
               (emitted Small.empty
                  (CloudflareR2Cache.deleteAll Small.calm Small.cache Small.empty).2))
     ≠ 1.
Proof.
  split; [eexists; reflexivity|]. split; [reflexivity|].
  split; [reflexivity | discriminate].
Qed.

Lemma C1_deleteAll_empty_bucket_witness :
  objects (H := Small.platform) Small.empty = ∅
  /\ emitted Small.empty
       (CloudflareR2Cache.deleteAll Small.calm Small.cache Small.empty).2
     = [S3_ListObjectsV2 "cache" None 0].
Proof.
  split; [reflexivity|].
  exact (proj1 (C1_deleteAll_empty_bucket (H := Small.platform) Small.calm
                  Small.cache Small.empty eq_refl)).
Defined.

(** C3, at the failing input. The empty string gives no usable key.
    [match] refuses it with the error of the class before any call is made.
    [deleteMany] has no such test: it sends the empty key to the store in a
    batch delete, asks the edge to purge the bare origin, and returns;
    [delete] is [deleteMany] of the one request. *)
Theorem C3_empty_key_reaches_store :
  no_key (_getKey (H := Small.platform) (Some (RString "")))
  /\ CloudflareR2Cache.match_ Small.calm Small.cache (RString "") Small.empty
     = (Throw (Error "Invalid cache key from request."), Small.empty)
  /\ CloudflareR2Cache.deleteMany Small.calm Small.cache [RString ""] Small.empty
     = (Return [],
        {| objects := ∅;
           log := [S3_DeleteObjects "cache" [{| Key := Some "" |}];
                   S3_DeleteObjects_settled 0 true;
                   fetch_call "https://api.cloudflare.com/client/v4/zones/zone/purge_cache"
                     {| method := "POST";
                        headers := [("Content-Type", "application/json");
                                    ("Authorization", "Bearer token")];
                        init_body := files ["https://example.com"] |}] |})
  /\ CloudflareR2Cache.delete Small.calm Small.cache (RString "") Small.empty
     = CloudflareR2Cache.deleteMany Small.calm Small.cache [RString ""] Small.empty.
Proof.
  split; [reflexivity|]. split; [reflexivity|]. split; reflexivity.
Qed.

(* ===================================================================== *)
(** * The edge configuration is optional                                  *)
(* ===================================================================== *)

Section Frame.
Context `{Platform}.
Variable env : Env.
Variable this : CloudflareR2Cache.t.
Variable cf : CloudflareR2Cache.CFCache.

Let bare := without_edge this.
Let edge := with_edge this cf.

(** A computation that runs the same in both: nothing to compare but that
    it makes no purge request. *)
Lemma transparent_same {A} (m : M A) (w : World) :
  (exists evs, log (m w).2 = log w ++ evs
               /\ Forall (fun e => is_purge e = false) evs) ->
  edge_transparent env w m m.
Proof.
  intros Hfree. split; [exact Hfree|]. split; [reflexivity|].
  split; [|reflexivity]. exists []. rewrite app_nil_r. split; [reflexivity | constructor].
Qed.

(** A common first part, free of purge requests, followed by two
    continuations that compare. *)
Lemma transparent_bind {A B} (m : M A) (kb ke : A -> M B) (w : World) :
  (exists evs, log (m w).2 = log w ++ evs
               /\ Forall (fun e => is_purge e = false) evs) ->
  (forall a, edge_transparent env (m w).2 (kb a) (ke a)) ->
  edge_transparent env w (bind m kb) (bind m ke).
Proof.
  intros (evs & Hlog & Hfree) Hk. unfold edge_transparent, bind.
  destruct (m w) as [[a | e] w1]; cbn [fst snd] in *.
  - destruct (Hk a) as ((evs' & Hlog' & Hfree') & Hobj & Htail & Hres).
    split; [|auto].
    exists (evs ++ evs'). rewrite Hlog', Hlog, app_assoc.
    split; [reflexivity | now apply Forall_app].
  - split; [eauto|]. split; [reflexivity|]. split; [|reflexivity].
    exists []. rewrite app_nil_r. split; [reflexivity | constructor].
Qed.

(** The last step: nothing, or the purge request. *)
Lemma transparent_purge {A} (d : A) (b : PurgeBody) (w : World) :
  edge_transparent env w
    (let* _ := ret tt in ret d)
    (let* _ := fetch env (CloudflareR2Cache.CF_url cf)
                 {| method := "POST"; headers := CloudflareR2Cache.CF_headers cf;
                    init_body := b |} in
     ret d).
Proof.
  unfold edge_transparent, bind. rewrite fetch_spec. unfold ret.
  cbn [fst snd log objects].
  split; [exists []; rewrite app_nil_r; split; [reflexivity | constructor]|].
  destruct (fault env (length (log w))); cbn [fst snd log objects];
    (split; [reflexivity|]);
    (split; [eexists [_]; split; [reflexivity | repeat constructor]|]);
    [discriminate | reflexivity].
Qed.

Lemma delete_chunks_free (cache : CloudflareR2Cache.t) chunks (w : World) :
  exists evs, log (CloudflareR2Cache.delete_chunks env cache chunks w).2 = log w ++ evs
              /\ Forall (fun e => is_purge e = false) evs.
Proof.
  destruct (delete_chunks_spec env cache chunks w)
    as (c & w' & evs & -> & Hlog & Hall & _).
  eexists. split; [exact Hlog|]. apply Forall_app. split.
  - apply Forall_forall. intros e (x & -> & _)%list_elem_of_fmap. reflexivity.
  - eapply Forall_impl; [exact Hall|]. intros []; cbn; congruence.
Qed.

Lemma ret_free {A} (a : A) (w : World) :
  exists evs, log (ret a w).2 = log w ++ evs
              /\ Forall (fun e => is_purge e = false) evs.
Proof. exists []. cbn. rewrite app_nil_r. split; [reflexivity | constructor]. Qed.

Lemma throw_free {A} (e : Exception) (w : World) :
  exists evs, log (throw (A := A) e w).2 = log w ++ evs
              /\ Forall (fun e => is_purge e = false) evs.
Proof. exists []. cbn. rewrite app_nil_r. split; [reflexivity | constructor]. Qed.

Lemma deleteMany_transparent (requests : list RequestInfo) (w : World) :
  edge_transparent env w
    (CloudflareR2Cache.deleteMany env bare requests)
    (CloudflareR2Cache.deleteMany env edge requests).
Proof.
  unfold CloudflareR2Cache.deleteMany.
  destruct (length requests =? 0); [apply transparent_same, ret_free|].
  destruct (chunkArray requests 1000) as [chunks|];
    [|apply transparent_same, throw_free].
  change (CloudflareR2Cache.delete_chunks env edge chunks)
    with (CloudflareR2Cache.delete_chunks env bare chunks).
  apply transparent_bind; [apply delete_chunks_free|].
  intros d. apply transparent_purge.
Qed.

Lemma keys_free (cache : CloudflareR2Cache.t) request (w : World) :
  exists evs, log (CloudflareR2Cache.keys env cache request w).2 = log w ++ evs
              /\ Forall (fun e => is_purge e = false) evs.
Proof.
  destruct (keys_spec env cache request w) as (c & evs & -> & Hall). eauto.
Qed.

Lemma deleteAll_transparent (w : World) :
  edge_transparent env w
    (CloudflareR2Cache.deleteAll env bare)
    (CloudflareR2Cache.deleteAll env edge).
Proof.
  unfold CloudflareR2Cache.deleteAll.
  change (CloudflareR2Cache.keys env edge None)
    with (CloudflareR2Cache.keys env bare None).
  apply transparent_bind; [apply keys_free|].
  intros ks.
  destruct (length ks =? 0); [apply transparent_same, ret_free|].
  destruct (chunkArray (map RString ks) 1000) as [chunks|];
    [|apply transparent_same, throw_free].
  change (CloudflareR2Cache.delete_chunks env edge chunks)
    with (CloudflareR2Cache.delete_chunks env bare chunks).
  apply transparent_bind; [apply delete_chunks_free|].
  intros d. apply transparent_purge.
Qed.

(** C9 (amended). Without an edge configuration no purge request is made,
    and the cache is the configured one less its purges. [match], [put] and
    [keys] run the same with and without the configuration: same result,
    same bucket, same calls. [deleteMany], [delete] and [deleteAll] without
    it make no purge request; they leave the same bucket and make the same
    calls to the store as with it, the configured run adding at most purge
    requests at the end; and they return the same whenever the purge request
    of the configured run does not fail. *)
Theorem C9_edge_optional (w : World) :
  (forall request,
      CloudflareR2Cache.match_ env bare request w
      = CloudflareR2Cache.match_ env edge request w)
  /\ (forall request response,
        CloudflareR2Cache.put env bare request response w
        = CloudflareR2Cache.put env edge request response w)
  /\ (forall request,
        CloudflareR2Cache.keys env bare request w
        = CloudflareR2Cache.keys env edge request w)
  /\ (forall requests,
        edge_transparent env w
          (CloudflareR2Cache.deleteMany env bare requests)
          (CloudflareR2Cache.deleteMany env edge requests))
  /\ (forall request,
        edge_transparent env w
          (CloudflareR2Cache.delete env bare request)
          (CloudflareR2Cache.delete env edge request))
  /\ edge_transparent env w
       (CloudflareR2Cache.deleteAll env bare)
       (CloudflareR2Cache.deleteAll env edge).
Proof.
  split; [reflexivity|]. split; [reflexivity|]. split; [reflexivity|].
  split; [intros; apply deleteMany_transparent|].
  split; [intros; apply deleteMany_transparent | apply deleteAll_transparent].
Qed.

End Frame.

(* ===================================================================== *)
(** * The statements at concrete runs                                     *)
(* ===================================================================== *)

(** 2500 requests go out as three batch deletes. *)
Lemma C6_chunk_partition_witness :
  1 <= length (Small.paths 2500)
  /\ length (List.filter is_batch_delete
               (emitted Small.empty
                  (CloudflareR2Cache.deleteMany Small.calm Small.cache
                     (Small.paths 2500) Small.empty).2))
     = 3.
Proof.
  assert (1 <= length (Small.paths 2500)) as Hn.
  { unfold Small.paths. rewrite length_map, length_seq. lia. }
  split; [exact Hn|].
  exact (proj1 (C6_chunk_partition (H := Small.platform) Small.calm Small.cache
                  (Small.paths 2500) Small.empty Hn)).
Defined.

(** Three batch deletes settling out of order (the second, the third, then
    the first): the purge is the seventh call, after all of them. *)
Lemma C2_purge_after_join_witness :
  let w' := (CloudflareR2Cache.deleteMany (H := Small.platform) Small.shuffled
               Small.cache (Small.paths 2500) Small.empty).2 in
  Small.paths 2500 ≠ []
  /\ length (log (H := Small.platform) Small.empty) <= 6
  /\ log w' !! 6
     = Some (purge_request Small.cache_edge
               (files (purge_urls (H := Small.platform) Small.cache_edge
                         (Small.paths 2500))))
  /\ take 6 (log w')
     = [S3_DeleteObjects "cache"
          (identifiers (H := Small.platform) (take 1000 (Small.paths 2500)));
        S3_DeleteObjects "cache"
          (identifiers (H := Small.platform)
             (take 1000 (drop 1000 (Small.paths 2500))));
        S3_DeleteObjects "cache"
          (identifiers (H := Small.platform) (drop 2000 (Small.paths 2500)));
        S3_DeleteObjects_settled 1 true;
        S3_DeleteObjects_settled 2 true;
        S3_DeleteObjects_settled 0 true]
  /\ forall i, i < 3 ->
       exists Bucket Objects k,
         log w' !! (0 + i) = Some (S3_DeleteObjects Bucket Objects)
         /\ 0 + i < k < 6
         /\ log w' !! k = Some (S3_DeleteObjects_settled (0 + i) true).
Proof.
  intros w'.
  assert (Small.paths 2500 ≠ []) as Hne by discriminate.
  assert (length (log (H := Small.platform) Small.empty) <= 6) as Hj by (cbn; lia).
  assert (log w' !! 6
          = Some (purge_request Small.cache_edge
                    (files (purge_urls (H := Small.platform) Small.cache_edge
                              (Small.paths 2500))))) as Hpurge by reflexivity.
  split; [exact Hne|]. split; [exact Hj|]. split; [exact Hpurge|].
  split; [reflexivity|].
  exact (C2_purge_after_join (H := Small.platform) Small.shuffled Small.cache
           (Small.paths 2500) Small.empty 6 _ _ Hne Hj Hpurge).
Defined.

(** A failing batch delete: the second of three commands fails, the call
    throws the store's failure, and no purge request goes out. *)
Example failing_chunk_no_purge :
  let env := {| fault := fun call => Nat.eqb call 1;
                pick := fun _ => 0;
                stamp_etag := stamp_etag Small.calm;
                stamp_uploaded := stamp_uploaded Small.calm |} in
  let run := CloudflareR2Cache.deleteMany (H := Small.platform) env Small.cache
               (Small.paths 2500) Small.empty in
  run.1 = Throw (StoreError 1)
  /\ drop 3 (log run.2)
     = [S3_DeleteObjects_settled 0 true; S3_DeleteObjects_settled 1 false].
Proof. split; reflexivity. Qed.



(** The stored page of the design document, matched. *)
Lemma C7_hit_headers_witness :
  objects Small.stored !! "/blog/post-1" = Some Small.entry
  /\ exists r w',
       CloudflareR2Cache.match_ (H := Small.platform) Small.calm Small.cache
       (RString "/blog/post-1") Small.stored = (Return (Some r), w')
       /\ Headers_get (response_headers r) "Content-Type" = Some "text/html"
       /\ Headers_get (response_headers r) "ETag" = Some (httpEtag Small.entry)
       /\ Headers_get (response_headers r) "Content-Length" = Some "5"
       /\ Headers_get (response_headers r) "Last-Modified"
          = Some "Thu, 01 Jan 1970 00:00:00 GMT"
       /\ Headers_get (response_headers r) "CDN-Cache-Control"
          = Some "public, max-age=31536000".
Proof.
  split; [reflexivity|].
  destruct (C7_hit_headers (H := Small.platform) Small.calm Small.cache
            (RString "/blog/post-1")
              "/blog/post-1" Small.entry Small.stored
              eq_refl eq_refl eq_refl eq_refl)
    as (init & Hrun & Hheaders & Hreturns).
  destruct (Hreturns 200%Z eq_refl) as [r Hr].
  { split; [lia | reflexivity]. }
  destruct (Hheaders r Hr) as (Hetag & Hlen & Hmod & Hcdn & Hrest).
  eexists r, _. rewrite Hrun, Hr. split; [reflexivity|].
  split; [|auto].
  rewrite Hrest; [reflexivity|].
  intros Hin. unfold computed_fields in Hin.
  rewrite !elem_of_cons, elem_of_nil in Hin.
  destruct Hin as [Hin | [Hin | [Hin | [Hin | []]]]]; discriminate Hin.
Defined.

(** One key deleted with and without the edge configuration: the same
    bucket, the same result. *)
Lemma C9_edge_optional_witness :
  let bare := CloudflareR2Cache.deleteMany (H := Small.platform) Small.calm
                Small.origin_only [RString "/blog/post-1"] Small.stored in
  let edge := CloudflareR2Cache.deleteMany (H := Small.platform) Small.calm
                Small.cache [RString "/blog/post-1"] Small.stored in
  fault Small.calm (length (log bare.2)) = false
  /\ edge.1 = bare.1
  /\ objects edge.2 = objects bare.2
  /\ bare.1 = Return [{| Key := Some "/blog/post-1" |}]
  /\ objects bare.2 = ∅.
Proof.
  intros bare edge.
  destruct (proj1 (proj2 (proj2 (proj2 (C9_edge_optional (H := Small.platform) Small.calm
                            Small.cache Small.cache_edge Small.stored))))
              [RString "/blog/post-1"])
    as (_ & Hobjects & _ & Hresult).
  split; [reflexivity|]. split; [exact (Hresult eq_refl)|].
  split; [exact Hobjects|]. split; reflexivity.
Defined.


(** The run behind C9 as it was stated: the same cache with and without its
    edge configuration, the same bucket, and a purge request that fails. The
    configured call throws that failure where the other returns the deleted
    key: the return values differ. *)
Lemma C9_counterexample_purge_failure :
  let env := {| fault := fun call => Nat.eqb call 3;
                pick := fun _ => 0;
                stamp_etag := stamp_etag Small.calm;
                stamp_uploaded := stamp_uploaded Small.calm |} in
  without_edge Small.cache = Small.origin_only
  /\ with_edge Small.cache Small.cache_edge = Small.cache
  /\ (CloudflareR2Cache.deleteMany (H := Small.platform) env Small.cache
        [RString "/blog/post-1"] Small.stored).1 = Throw (PurgeError 3)
  /\ (CloudflareR2Cache.deleteMany (H := Small.platform) env Small.origin_only
        [RString "/blog/post-1"] Small.stored).1
     = Return [{| Key := Some "/blog/post-1" |}].
Proof.
  intros env. split; [reflexivity|]. split; [reflexivity|]. split; reflexivity.
Qed.

(* ===================================================================== *)
(** * Further properties of util.ts                                       *)
(* ===================================================================== *)

Section ChunkSlices.
Context {T : Type}.
Implicit Types (arr : list T) (size fuel : nat).

Lemma chunkArray_rec_slices size :
  forall fuel arr chunks,
    chunkArray_rec fuel arr size = Some chunks ->
    forall i c, chunks !! i = Some c -> c = take size (drop (i * size) arr).
Proof.
  induction fuel as [|fuel IH]; intros arr chunks Hrun i c Hi; [discriminate|].
  destruct (Nat.lt_ge_cases size (length arr)) as [Hlt | Hle].
  - rewrite chunkArray_rec_long in Hrun by assumption.
    destruct (chunkArray_rec fuel (drop size arr) size) as [rest|] eqn:Hrest;
      [|discriminate].
    cbn in Hrun. injection Hrun as <-.
    destruct i as [|i]; cbn in Hi.
    + injection Hi as <-. reflexivity.
    + rewrite (IH _ _ Hrest i c Hi), drop_drop. reflexivity.
  - rewrite chunkArray_rec_short in Hrun by assumption. injection Hrun as <-.
    destruct i as [|i]; [|destruct i; discriminate].
    cbn in Hi. injection Hi as <-. cbn. now rewrite take_ge.
Qed.

Lemma chunk_count_short n size :
  0 < size -> n <= size -> chunk_count n size = 1.
Proof.
  intros Hpos Hle. unfold chunk_count.
  assert ((n + size - 1) / size < 2) by (apply Nat.Div0.div_lt_upper_bound; lia).
  lia.
Qed.

Lemma chunkArray_rec_returns size :
  0 < size ->
  forall fuel arr,
    is_Some (chunkArray_rec fuel arr size) <-> chunk_count (length arr) size <= fuel.
Proof.
  intros Hpos. induction fuel as [|fuel IH]; intros arr.
  - cbn. split; [intros [? [=]] | unfold chunk_count; lia].
  - destruct (Nat.lt_ge_cases size (length arr)) as [Hlt | Hle].
    + rewrite chunkArray_rec_long, chunk_count_step by assumption.
      specialize (IH (drop size arr)). rewrite length_drop in IH.
      rewrite <- Nat.succ_le_mono, <- IH.
      destruct (chunkArray_rec fuel (drop size arr) size); cbn;
        split; intros [? ?]; eauto; discriminate.
    + rewrite chunkArray_rec_short, chunk_count_short by assumption.
      split; [lia | eauto].
Qed.

Lemma chunkArray_rec_length size :
  0 < size ->
  forall fuel arr chunks,
    chunkArray_rec fuel arr size = Some chunks ->
    length chunks = chunk_count (length arr) size.
Proof.
  intros Hpos. induction fuel as [|fuel IH]; intros arr chunks Hrun;
    [discriminate|].
  destruct (Nat.lt_ge_cases size (length arr)) as [Hlt | Hle].
  - rewrite chunkArray_rec_long in Hrun by assumption.
    destruct (chunkArray_rec fuel (drop size arr) size) as [rest|] eqn:Hrest;
      [|discriminate].
    cbn in Hrun. injection Hrun as <-. cbn [length].
    rewrite (IH _ _ Hrest), length_drop. symmetry.
    now apply chunk_count_step.
  - rewrite chunkArray_rec_short in Hrun by assumption. injection Hrun as <-.
    symmetry. now apply chunk_count_short.
Qed.

(** X1. For a size that is an integer and at least 1, on a call stack with
    room for [fuel] nested calls: [chunkArray(arr, size)] nests one call per
    chunk, so it returns exactly when the number of chunks, the greater of 1
    and the length divided by the size rounded up, is at most [fuel] (the
    source ends in a [RangeError] otherwise); and when it returns, chunk [i]
    is the slice of [arr] from [i * size] of length [size], shorter at the
    end of the array. *)
Theorem chunkArray_slices arr size fuel :
  0 < size ->
  (is_Some (chunkArray_rec fuel arr size)
   <-> chunk_count (length arr) size <= fuel)
  /\ forall chunks,
       chunkArray_rec fuel arr size = Some chunks ->
       length chunks = chunk_count (length arr) size
       /\ forall i, i < length chunks ->
            chunks !! i = Some (take size (drop (i * size) arr)).
Proof.
  intros Hpos. split; [now apply chunkArray_rec_returns|].
  intros chunks Hrun. split; [now apply (chunkArray_rec_length size Hpos fuel)|].
  intros i Hi. destruct (lookup_lt_is_Some_2 chunks i Hi) as [c Hc].
  rewrite Hc. f_equal.
  exact (chunkArray_rec_slices size _ arr chunks Hrun i c Hc).
Qed.

(** X2. With size 0 and a non-empty array the source calls itself on the same
    array for ever: no number of calls gives a result. *)
Theorem chunkArray_size_zero_never_returns arr :
  arr ≠ [] -> forall fuel, chunkArray_rec fuel arr 0 = None.
Proof.
  intros Hne. induction fuel as [|fuel IH]; [reflexivity|].
  rewrite chunkArray_rec_long by (destruct arr; [congruence | cbn; lia]).
  rewrite drop_0, IH. reflexivity.
Qed.

End ChunkSlices.

(** Five items by two: three nested calls are needed; a stack with room for
    three gives the three slices, a stack with room for two gives nothing. *)
Lemma chunkArray_slices_witness :
  0 < 2
  /\ chunkArray_rec 3 [1; 2; 3; 4; 5] 2 = Some [[1; 2]; [3; 4]; [5]]
  /\ chunkArray_rec 2 [1; 2; 3; 4; 5] 2 = None
  /\ (is_Some (chunkArray_rec 3 [1; 2; 3; 4; 5] 2)
      <-> chunk_count (length [1; 2; 3; 4; 5]) 2 <= 3)
  /\ forall chunks,
       chunkArray_rec 3 [1; 2; 3; 4; 5] 2 = Some chunks ->
       length chunks = chunk_count (length [1; 2; 3; 4; 5]) 2
       /\ forall i, i < length chunks ->
            chunks !! i = Some (take 2 (drop (i * 2) [1; 2; 3; 4; 5])).
Proof.
  split; [lia|]. split; [reflexivity|]. split; [reflexivity|].
  exact (chunkArray_slices [1; 2; 3; 4; 5] 2 3 ltac:(lia)).
Defined.

Lemma chunkArray_size_zero_never_returns_witness :
  [1; 2] ≠ [] /\ forall fuel, chunkArray_rec fuel [1; 2] 0 = None.
Proof.
  split; [discriminate|].
  exact (chunkArray_size_zero_never_returns [1; 2] ltac:(discriminate)).
Defined.

Section CodecMore.
Context `{Platform}.

(** X3. [serializeHTTPMetadata] reads the six covered headers and nothing
    else: setting or removing any other header changes nothing. *)
Theorem serialize_ignores_uncovered (h : Headers) (name value : string) :
  name ∉ codec_fields ->
  serializeHTTPMetadata (<[name := value]> h) = serializeHTTPMetadata h
  /\ serializeHTTPMetadata (delete name h) = serializeHTTPMetadata h.
Proof.
  intros Hout. unfold codec_fields in Hout.
  rewrite !not_elem_of_cons in Hout.
  destruct Hout as (? & ? & ? & ? & ? & ? & _).
  unfold serializeHTTPMetadata, Headers_get. lower_literals.
  split.
  - now rewrite !lookup_insert_ne by congruence.
  - now rewrite !lookup_delete_ne by congruence.
Qed.




End CodecMore.

Lemma serialize_ignores_uncovered_witness :
  let h : Headers := {[ "cache-control" := "no-store" ]} in
  ("x-request-id" ∉ codec_fields)
  /\ serializeHTTPMetadata (H := Small.platform) (<["x-request-id" := "7"]> h)
     = serializeHTTPMetadata h
  /\ serializeHTTPMetadata (H := Small.platform) (delete "x-request-id" h)
     = serializeHTTPMetadata h.
Proof.
  intros h.
  assert ("x-request-id" ∉ codec_fields) as Hout
    by (refine (bool_decide_unpack _ _); vm_compute; exact I).
  split; [exact Hout|].
  exact (serialize_ignores_uncovered (H := Small.platform) h "x-request-id" "7" Hout).
Defined.



(* ===================================================================== *)
(** * The bucket under the batch deletes                                  *)
(* ===================================================================== *)

Section StoreFacts.
Context `{Platform}.
Variable env : Env.

Lemma lookup_removed (os : list ObjectIdentifier) (m : gmap string R2Object) k :
  foldr remove_key m os !! k = if decide (k ∈ names os) then None else m !! k.
Proof.
  induction os as [|o os IH]; cbn.
  - rewrite decide_False by apply not_elem_of_nil. reflexivity.
  - unfold remove_key at 1, names. destruct o as [[k'|]]; cbn.
    + destruct (decide (k' = k)) as [->|Hne].
      * rewrite lookup_delete_eq, decide_True by (rewrite elem_of_cons; auto).
        reflexivity.
      * rewrite lookup_delete_ne, IH by assumption. unfold names.
        destruct (decide (k ∈ omap Key os)) as [Hin|Hout].
        -- rewrite decide_True by (rewrite elem_of_cons; auto).
           reflexivity.
        -- rewrite decide_False; [reflexivity|].
           rewrite elem_of_cons. intros [-> | Hin]; [congruence | tauto].
    + exact IH.
Qed.

Lemma names_app (a b : list ObjectIdentifier) : names (a ++ b) = names a ++ names b.
Proof. apply omap_app. Qed.

Lemma names_identifiers (requests : list RequestInfo) :
  names (identifiers requests) = requested requests.
Proof.
  unfold names, identifiers, requested.
  induction requests as [|r l IH]; [reflexivity|].
  change (omap Key (map ?f (r :: l)))
    with (match _getKey (Some r) with
          | Some k => k :: omap Key (map f l)
          | None => omap Key (map f l)
          end).
  rewrite IH. reflexivity.
Qed.

Lemma settle_run (p : Pending) (w : World) :
  settle env p w =
    (if fault env (pending_call p)
     then Throw (StoreError (pending_call p))
     else Return {| Deleted :=
                      match List.filter (present w) (pending_objects p) with
                      | [] => None
                      | _ => Some (List.filter (present w) (pending_objects p))
                      end |},
     {| objects := if fault env (pending_call p) then objects w
                   else foldr remove_key (objects w) (pending_objects p);
        log := log w ++ [S3_DeleteObjects_settled (pending_call p)
                           (negb (fault env (pending_call p)))] |}).
Proof. unfold settle. destruct (fault env (pending_call p)); reflexivity. Qed.

Lemma in_flight_delete inflight i slot p k :
  inflight !! i = Some (slot, p) ->
  k ∈ names (in_flight inflight)
  <-> k ∈ names (pending_objects p) \/ k ∈ names (in_flight (delete i inflight)).
Proof.
  intros Hi. rewrite delete_take_drop.
  rewrite <- (take_drop_middle inflight i _ Hi) at 1.
  unfold in_flight. rewrite !flat_map_app. cbn [flat_map].
  rewrite !names_app, !elem_of_app. cbn. tauto.
Qed.

Lemma pick_in_range (inflight : list (nat * Pending)) n :
  inflight !! (n mod length inflight) = None -> inflight = [].
Proof.
  intros Hi. apply lookup_ge_None in Hi.
  destruct inflight as [|x l]; [reflexivity|].
  pose proof (Nat.mod_upper_bound n (length (x :: l))) as Hlt.
  cbn in Hlt, Hi. lia.
Qed.

Lemma Promise_all_loop_step fuel inflight results w :
  Promise_all_loop env (S fuel) inflight results w =
    match inflight !! (pick env (length (log w)) mod length inflight) with
    | Some (slot, p) =>
        match settle env p w with
        | (Return r, w1) =>
            Promise_all_loop env fuel
              (delete (pick env (length (log w)) mod length inflight) inflight)
              (<[slot := Some r]> results) w1
        | (Throw e, w1) => (Throw e, w1)
        end
    | None => (Return results, w)
    end.
Proof.
  cbn [Promise_all_loop]. unfold bind at 1, world at 1.
  destruct (inflight !! _) as [[slot p]|]; reflexivity.
Qed.

(** The bucket through the join: whatever the order and the faults, a key
    keeps its object or loses it, and it can lose it only when a batch
    delete in flight names it; when none of them fails, the join returns
    and every key named is gone. *)
Lemma Promise_all_loop_objects :
  forall fuel inflight results w,
    length inflight <= fuel ->
    (forall k,
        objects (Promise_all_loop env fuel inflight results w).2 !! k
        = objects w !! k
        \/ (objects (Promise_all_loop env fuel inflight results w).2 !! k = None
            /\ k ∈ names (in_flight inflight)))
    /\ ((forall slot p, (slot, p) ∈ inflight -> fault env (pending_call p) = false) ->
        (exists rs, (Promise_all_loop env fuel inflight results w).1 = Return rs)
        /\ forall k, k ∈ names (in_flight inflight) ->
             objects (Promise_all_loop env fuel inflight results w).2 !! k = None).
Proof.
  induction fuel as [|fuel IH]; intros inflight results w Hfuel.
  - destruct inflight; [|cbn in Hfuel; lia]. cbn.
    split; [left; reflexivity|]. intros _. split; [eauto|].
    intros k Hk. inversion Hk.
  - rewrite Promise_all_loop_step.
    set (i := pick env (length (log w)) mod length inflight).
    destruct (inflight !! i) as [[slot p]|] eqn:Hi.
    + rewrite settle_run.
      destruct (fault env (pending_call p)) eqn:Hf.
      * cbn. split; [left; reflexivity|]. intros Hcalm.
        rewrite (Hcalm slot p) in Hf; [discriminate|].
        eapply list_elem_of_lookup_2; exact Hi.
      * match goal with
        | |- context [Promise_all_loop env fuel ?l ?rs ?w1] =>
            destruct (IH l rs w1) as [Hany Hcalm];
              [rewrite length_delete by eauto; lia|]
        end.
        cbn [objects] in Hany.
        split.
        -- intros k. destruct (Hany k) as [Heq | [Hnone Hin]].
           ++ rewrite Heq, lookup_removed.
              destruct (decide (k ∈ names (pending_objects p))) as [Hp|Hp].
              ** right. split; [reflexivity|].
                 apply (in_flight_delete _ _ _ _ _ Hi). left. exact Hp.
              ** left. reflexivity.
           ++ right. split; [exact Hnone|].
              apply (in_flight_delete _ _ _ _ _ Hi). right. exact Hin.
        -- intros Hc. destruct Hcalm as [Hret Hgone].
           { intros slot' p' Hin. apply (Hc slot').
             eapply list_elem_of_delete_inv; exact Hin. }
           split; [exact Hret|]. intros k Hk.
           apply (in_flight_delete _ _ _ _ _ Hi) in Hk as [Hp | Hrest].
           ++ destruct (Hany k) as [Heq | [Hnone _]]; [|exact Hnone].
              rewrite Heq, lookup_removed, decide_True by exact Hp. reflexivity.
           ++ apply Hgone. exact Hrest.
    + apply pick_in_range in Hi. subst inflight. cbn.
      split; [left; reflexivity|]. intros _. split; [eauto|].
      intros k Hk. inversion Hk.
Qed.

Lemma present_removed (os : list ObjectIdentifier) (w w1 : World) o :
  objects w1 = foldr remove_key (objects w) os ->
  present w1 o = true -> present w o = true.
Proof.
  intros Hw1. unfold present. destruct (Key o) as [k|]; [|auto].
  rewrite Hw1, lookup_removed. destruct (decide (k ∈ names os)); [|auto].
  intros Hsome%bool_decide_eq_true. destruct Hsome; discriminate.
Qed.

Lemma filter_present_sound (Q : ObjectIdentifier -> Prop) (w : World)
    (os : list ObjectIdentifier) :
  (forall o, o ∈ os -> present w o = true -> Q o) ->
  Forall Q (List.filter (present w) os).
Proof.
  intros HQ. apply Forall_forall. intros o Hin.
  apply list_elem_of_In, filter_In in Hin as [Hin Hp].
  apply HQ; [apply list_elem_of_In; exact Hin | exact Hp].
Qed.

(** What the join reports: each result reports only objects its own batch
    delete named and that were in the bucket when the join began. *)
Lemma Promise_all_loop_reports (Q : ObjectIdentifier -> Prop) :
  forall fuel inflight results w,
    (forall slot p o, (slot, p) ∈ inflight -> o ∈ pending_objects p ->
                      present w o = true -> Q o) ->
    reports Q results ->
    forall rs, (Promise_all_loop env fuel inflight results w).1 = Return rs ->
               reports Q rs.
Proof.
  induction fuel as [|fuel IH]; intros inflight results w HQ Hres rs.
  - cbn. intros [= <-]. exact Hres.
  - rewrite Promise_all_loop_step.
    set (i := pick env (length (log w)) mod length inflight).
    destruct (inflight !! i) as [[slot p]|] eqn:Hi;
      [|cbn; intros [= <-]; exact Hres].
    rewrite settle_run. destruct (fault env (pending_call p)) eqn:Hf;
      [discriminate|].
    apply IH.
    + intros slot' p' o Hin Ho Hp. apply (HQ slot' p' o).
      * eapply list_elem_of_delete_inv; exact Hin.
      * exact Ho.
      * eapply (present_removed (pending_objects p)); [|exact Hp]. reflexivity.
    + apply Forall_insert; [exact Hres|]. intros out [= <-]. cbn [Deleted].
      assert (Forall Q (List.filter (present w) (pending_objects p))) as Hgone.
      { apply filter_present_sound. intros o Ho Hp. apply (HQ slot p o); auto.
        eapply list_elem_of_lookup_2; exact Hi. }
      destruct (List.filter (present w) (pending_objects p)); [constructor|].
      exact Hgone.
Qed.

Lemma in_flight_imap {A} (f : A -> list ObjectIdentifier) (l : list A) :
  forall (h : nat -> Pending -> nat * Pending) (g : nat -> A -> Pending),
    (forall i p, (h i p).2 = p) ->
    (forall i a, pending_objects (g i a) = f a) ->
    in_flight (imap h (imap g l)) = flat_map f l.
Proof.
  unfold in_flight. induction l as [|a l IH]; intros h g Hh Hg; [reflexivity|].
  rewrite !imap_cons. cbn [flat_map]. rewrite Hh, Hg. f_equal.
  apply IH; intros; [apply Hh | apply Hg].
Qed.

Lemma flat_map_identifiers (chunks : list (list RequestInfo)) :
  flat_map identifiers chunks = identifiers (concat chunks).
Proof.
  unfold identifiers. induction chunks as [|c l IH]; [reflexivity|].
  cbn [flat_map concat]. rewrite IH, map_app. reflexivity.
Qed.

Lemma Promise_all_unfold (promises : list Pending) (w : World) :
  Promise_all env promises w =
    match Promise_all_loop env (length promises) (imap pair promises)
            (replicate (length promises) None) w with
    | (Return rs, w') => (Return (omap id rs), w')
    | (Throw e, w') => (Throw e, w')
    end.
Proof. reflexivity. Qed.

End StoreFacts.

Section InvalidateFacts.
Context `{Platform}.
Variable env : Env.
Variable this : CloudflareR2Cache.t.

(** The world in which the batch deletes of [chunks] have all been sent. *)
Let sent (chunks : list (list RequestInfo)) (w : World) : World :=
  {| objects := objects w; log := log w ++ map (command this) chunks |}.

Lemma delete_chunks_unfold (chunks : list (list RequestInfo)) (w : World) :
  CloudflareR2Cache.delete_chunks env this chunks w =
    match Promise_all_loop env (length chunks)
            (imap pair (imap (pending_at w identifiers) chunks))
            (replicate (length chunks) None) (sent chunks w) with
    | (Return rs, w') =>
        (Return (flat_map (fun o => default [] (Deleted o)) (omap id rs)), w')
    | (Throw e, w') => (Throw e, w')
    end.
Proof.
  unfold CloudflareR2Cache.delete_chunks. unfold bind at 1.
  change (traverse _ chunks w)
    with (traverse (fun chunk => S3_send_DeleteObjects
                                   (CloudflareR2Cache.S3 this)
                                   (CloudflareR2Cache.bucket this)
                                   (identifiers chunk)) chunks w).
  rewrite (send_all_spec (CloudflareR2Cache.S3 this)
             (CloudflareR2Cache.bucket this) identifiers).
  unfold bind at 1. rewrite Promise_all_unfold, length_imap.
  fold (sent chunks w).
  destruct (Promise_all_loop _ _ _ _ _) as [[rs|e] w']; reflexivity.
Qed.

Lemma in_flight_chunks (chunks : list (list RequestInfo)) (w : World) :
  in_flight (imap pair (imap (pending_at w identifiers) chunks))
  = identifiers (concat chunks).
Proof.
  rewrite <- flat_map_identifiers. apply in_flight_imap; reflexivity.
Qed.

(** The bucket through the batch deletes of [chunks]. *)
Lemma delete_chunks_objects (chunks : list (list RequestInfo)) (w : World) :
  (forall k,
      objects (CloudflareR2Cache.delete_chunks env this chunks w).2 !! k
      = objects w !! k
      \/ (objects (CloudflareR2Cache.delete_chunks env this chunks w).2 !! k = None
          /\ k ∈ requested (concat chunks)))
  /\ ((forall n, fault env n = false) ->
      (exists d, (CloudflareR2Cache.delete_chunks env this chunks w).1 = Return d)
      /\ forall k, k ∈ requested (concat chunks) ->
           objects (CloudflareR2Cache.delete_chunks env this chunks w).2 !! k = None).
Proof.
  rewrite delete_chunks_unfold.
  destruct (Promise_all_loop_objects env (length chunks)
              (imap pair (imap (pending_at w identifiers) chunks))
              (replicate (length chunks) None) (sent chunks w))
    as [Hany Hcalm]; [now rewrite !length_imap|].
  rewrite in_flight_chunks, names_identifiers in Hany, Hcalm.
  destruct (Promise_all_loop _ _ _ _ _) as [[rs|e] w'] eqn:Hrun;
    cbn [fst snd] in *.
  - split; [exact Hany|]. intros Hc.
    destruct Hcalm as [_ Hgone]; [auto|]. split; [eauto | exact Hgone].
  - split; [exact Hany|]. intros Hc.
    destruct Hcalm as [[rs [=]] _]. auto.
Qed.

(** What the batch deletes report. *)
Lemma delete_chunks_reports (chunks : list (list RequestInfo)) (w : World) d :
  (CloudflareR2Cache.delete_chunks env this chunks w).1 = Return d ->
  Forall (fun o => o ∈ identifiers (concat chunks) /\ present w o = true) d.
Proof.
  rewrite delete_chunks_unfold.
  pose proof (Promise_all_loop_reports env
                (fun o => o ∈ identifiers (concat chunks) /\ present w o = true)
                (length chunks)
                (imap pair (imap (pending_at w identifiers) chunks))
                (replicate (length chunks) None) (sent chunks w)) as Hrep.
  destruct (Promise_all_loop _ _ _ _ _) as [[rs|e] w'] eqn:Hrun;
    cbn [fst snd] in *; [|discriminate].
  intros [= <-].
  assert (reports (fun o => o ∈ identifiers (concat chunks) /\ present w o = true) rs)
    as Hrs.
  { apply Hrep; [| |reflexivity].
    - intros slot p o Hin Ho Hp. split; [|exact Hp].
      rewrite <- in_flight_chunks with (w := w). unfold in_flight.
      apply list_elem_of_In, in_flat_map. exists (slot, p).
      split; apply list_elem_of_In; assumption.
    - apply Forall_replicate. discriminate. }
  clear Hrep Hrun. unfold reports in Hrs.
  induction rs as [|r rs IH]; [constructor|].
  apply Forall_cons in Hrs as [Hr Hrs]. destruct r as [out|]; cbn.
  - apply Forall_app. split; [apply Hr; reflexivity | apply IH; exact Hrs].
  - apply IH; exact Hrs.
Qed.

(** The batch deletes followed by the purge: the purge leaves the bucket
    alone, and it is sent only when the edge is configured and every batch
    delete came back. *)
Lemma invalidate_spec (chunks : list (list RequestInfo))
    (b : CloudflareR2Cache.CFCache -> PurgeBody) (w : World) :
  exists c w' evs tail,
    invalidate env this chunks b w = (c, w')
    /\ objects w' = objects (CloudflareR2Cache.delete_chunks env this chunks w).2
    /\ log w' = log w ++ map (command this) chunks ++ evs ++ tail
    /\ Forall (fun e => is_settled e = true) evs
    /\ ((tail = []
         /\ c = (CloudflareR2Cache.delete_chunks env this chunks w).1
         /\ ((exists call, c = Throw (StoreError call))
             \/ CloudflareR2Cache.this_CFCache this = None))
        \/ (exists cf d,
               CloudflareR2Cache.this_CFCache this = Some cf
               /\ (CloudflareR2Cache.delete_chunks env this chunks w).1 = Return d
               /\ tail = [purge_request cf (b cf)]
               /\ c = if fault env (length (log w) + length chunks + length evs)
                      then Throw (PurgeError
                                    (length (log w) + length chunks + length evs))
                      else Return d)).
Proof.
  unfold invalidate. unfold bind at 1.
  destruct (delete_chunks_spec env this chunks w)
    as (c & w1 & evs & Hrun & Hlog & Hall & Hc).
  rewrite Hrun. cbn [fst snd].
  destruct c as [d | e].
  - destruct (CloudflareR2Cache.this_CFCache this) as [cf|] eqn:Hcf.
    + unfold bind at 1. rewrite (purge_spec env this (b cf) w1 cf Hcf).
      assert (length (log w1) = length (log w) + length chunks + length evs)
        as Hlen by (rewrite Hlog, !length_app, length_map; lia).
      rewrite Hlen.
      exists (if fault env (length (log w) + length chunks + length evs)
              then Throw (PurgeError (length (log w) + length chunks + length evs))
              else Return d),
        {| objects := objects w1; log := log w1 ++ [purge_request cf (b cf)] |},
        evs, [purge_request cf (b cf)].
      split; [destruct (fault env _); reflexivity|].
      split; [reflexivity|]. cbn [log].
      split; [rewrite Hlog, <- !app_assoc; reflexivity|].
      split; [assumption|]. right. exists cf, d. auto.
    + exists (Return d), w1, evs, []. split; [reflexivity|].
      split; [reflexivity|]. rewrite Hlog, app_nil_r.
      split; [reflexivity|]. split; [assumption|]. left. auto.
  - exists (Throw e), w1, evs, []. split; [reflexivity|].
    split; [reflexivity|]. rewrite Hlog, app_nil_r.
    split; [reflexivity|]. split; [assumption|]. left.
    destruct Hc as (call & -> & _). eauto.
Qed.

Lemma deleteMany_unfold (requests : list RequestInfo) :
  requests ≠ [] ->
  exists chunks,
    chunkArray requests 1000 = Some chunks
    /\ concat chunks = requests
    /\ forall w,
         CloudflareR2Cache.deleteMany env this requests w =
           invalidate env this chunks (fun cf => files (purge_urls cf requests)) w.
Proof.
  intros Hne.
  destruct (chunkArray_spec requests 1000 ltac:(lia))
    as (chunks & Hchunks & Hcat & _).
  exists chunks. split; [exact Hchunks|]. split; [exact Hcat|]. intros w.
  unfold CloudflareR2Cache.deleteMany, invalidate.
  replace (length requests =? 0) with false
    by (destruct requests; [congruence | reflexivity]).
  rewrite Hchunks.
  destruct (CloudflareR2Cache.this_CFCache this) as [cf|]; [|reflexivity].
  rewrite purge_urls_eq. reflexivity.
Qed.

End InvalidateFacts.

(* ===================================================================== *)
(** * Further properties of [deleteMany] and [delete]                     *)
(* ===================================================================== *)

Section DeleteManyMore.
Context `{Platform}.
Variable env : Env.
Variable this : CloudflareR2Cache.t.

Lemma deleteMany_objects (requests : list RequestInfo) (w : World) :
  (forall k,
      objects (CloudflareR2Cache.deleteMany env this requests w).2 !! k
      = objects w !! k
      \/ (objects (CloudflareR2Cache.deleteMany env this requests w).2 !! k = None
          /\ k ∈ requested requests))
  /\ ((forall n, fault env n = false) ->
      (exists d, (CloudflareR2Cache.deleteMany env this requests w).1 = Return d)
      /\ objects (CloudflareR2Cache.deleteMany env this requests w).2
         = foldr remove_key (objects w) (identifiers requests)).
Proof.
  destruct (decide (requests = [])) as [-> | Hne].
  { split; [left; reflexivity|]. intros _. split; [eexists|]; reflexivity. }
  destruct (deleteMany_unfold env this requests Hne) as (chunks & _ & Hcat & Hrun).
  rewrite Hrun.
  destruct (invalidate_spec env this chunks
              (fun cf => files (purge_urls cf requests)) w)
    as (c & w' & evs & tail & -> & Hobj & _ & _ & Hend).
  cbn [fst snd]. rewrite Hobj.
  destruct (delete_chunks_objects env this chunks w) as [Hany Hcalm].
  rewrite Hcat in Hany, Hcalm.
  split; [exact Hany|]. intros Hc. destruct (Hcalm Hc) as [[d Hd] Hgone].
  split.
  - destruct Hend as [(_ & -> & _) | (cf & d' & _ & Hd' & _ & ->)]; [eauto|].
    rewrite Hc. eauto.
  - apply map_eq. intros k. rewrite lookup_removed, names_identifiers.
    destruct (decide (k ∈ requested requests)) as [Hin | Hout]; [auto|].
    destruct (Hany k) as [Heq | [_ Hin]]; [exact Heq | contradiction].
Qed.

(** X6. Whatever fails and in whatever order the batch deletes settle,
    [deleteMany] never adds or alters an object, and a key can lose its
    object only when one of the requests stands for it. *)
Theorem deleteMany_only_removes_requested (requests : list RequestInfo)
    (w : World) (k : string) :
  objects (CloudflareR2Cache.deleteMany env this requests w).2 !! k
  = objects w !! k
  \/ (objects (CloudflareR2Cache.deleteMany env this requests w).2 !! k = None
      /\ k ∈ requested requests).
Proof. apply deleteMany_objects. Qed.

(** X7. When no call fails, [deleteMany] returns, and the bucket it leaves is
    the bucket it found without the keys of the requests, in whatever order
    the batch deletes settle. *)
Theorem deleteMany_removes_requested (requests : list RequestInfo) (w : World) :
  (forall n, fault env n = false) ->
  (exists d, (CloudflareR2Cache.deleteMany env this requests w).1 = Return d)
  /\ objects (CloudflareR2Cache.deleteMany env this requests w).2
     = foldr remove_key (objects w) (identifiers requests).
Proof. apply deleteMany_objects. Qed.

(** X8. What [deleteMany] returns when it returns: object identifiers it sent
    in its batch deletes, those of its requests, and no other. *)
Theorem deleteMany_reports (requests : list RequestInfo) (w : World)
    (d : list ObjectIdentifier) :
  (CloudflareR2Cache.deleteMany env this requests w).1 = Return d ->
  Forall (fun o => o ∈ identifiers requests) d.
Proof.
  destruct (decide (requests = [])) as [-> | Hne].
  { cbn. intros [= <-]. constructor. }
  destruct (deleteMany_unfold env this requests Hne) as (chunks & _ & Hcat & Hrun).
  rewrite Hrun.
  destruct (invalidate_spec env this chunks
              (fun cf => files (purge_urls cf requests)) w)
    as (c & w' & evs & tail & -> & _ & _ & _ & Hend).
  cbn [fst]. intros ->. rewrite <- Hcat.
  eapply Forall_impl; [apply (delete_chunks_reports env this chunks w)|].
  - destruct Hend as [(_ & <- & _) | (cf & d' & _ & Hd' & _ & Hc)]; [reflexivity|].
    rewrite Hd'. destruct (fault env _); congruence.
  - intros o [Ho _]. exact Ho.
Qed.

(** X9. [delete], when no call fails, removes the key of its request and
    nothing else. *)
Theorem delete_removes_one (request : RequestInfo) (w : World) (k : string) :
  (forall n, fault env n = false) ->
  _getKey (Some request) = Some k ->
  objects (CloudflareR2Cache.delete env this request w).2
  = delete k (objects w).
Proof.
  intros Hc Hk. unfold CloudflareR2Cache.delete.
  destruct (deleteMany_objects [request] w) as [_ Hcalm].
  destruct (Hcalm Hc) as [_ ->].
  change (foldr remove_key (objects w) (identifiers [request]))
    with (match _getKey (Some request) with
          | Some k => delete k (objects w)
          | None => objects w
          end).
  rewrite Hk. reflexivity.
Qed.

Lemma filter_purge_commands (chunks : list (list RequestInfo)) :
  List.filter is_purge (map (command this) chunks) = [].
Proof. induction chunks as [|c l IH]; [reflexivity | exact IH]. Qed.

Lemma filter_purge_settled (evs : list Event) :
  Forall (fun e => is_settled e = true) evs -> List.filter is_purge evs = [].
Proof.
  intros Hall. apply (filter_none _ _ _ Hall). intros [] Hs; cbn in *; congruence.
Qed.

(** Where the purge stands among the calls of an invalidation. *)
Lemma invalidate_purges (chunks : list (list RequestInfo))
    (b : CloudflareR2Cache.CFCache -> PurgeBody) (w : World) :
  exists before tail,
    log (invalidate env this chunks b w).2 = log w ++ before ++ tail
    /\ List.filter is_purge before = []
    /\ ((tail = []
         /\ ((exists call, (invalidate env this chunks b w).1
                           = Throw (StoreError call))
             \/ CloudflareR2Cache.this_CFCache this = None))
        \/ (exists cf,
               CloudflareR2Cache.this_CFCache this = Some cf
               /\ tail = [purge_request cf (b cf)]
               /\ forall call, (invalidate env this chunks b w).1
                               ≠ Throw (StoreError call))).
Proof.
  destruct (invalidate_spec env this chunks b w)
    as (c & w' & evs & tail & -> & _ & Hlog & Hall & Hend).
  cbn [fst snd]. exists (map (command this) chunks ++ evs), tail.
  split; [rewrite Hlog, <- !app_assoc; reflexivity|].
  split.
  { rewrite List.filter_app, filter_purge_commands, (filter_purge_settled evs Hall).
    reflexivity. }
  destruct Hend as [(-> & _ & Hwhy) | (cf & d & Hcf & _ & -> & ->)].
  - left. auto.
  - right. exists cf. split; [exact Hcf|]. split; [reflexivity|].
    intros call. destruct (fault env _); discriminate.
Qed.

Lemma purges_of_run (w w' : World) (before tail : list Event) :
  log w' = log w ++ before ++ tail ->
  List.filter is_purge before = [] ->
  Forall (fun e => is_purge e = true) tail ->
  List.filter is_purge (emitted w w') = tail.
Proof.
  intros Hlog Hbefore Htail. rewrite (emitted_app w w' _ Hlog).
  rewrite List.filter_app, Hbefore. apply filter_all. exact Htail.
Qed.

(** X10. [deleteMany] asks the edge to purge at most once; not at all when a
    batch delete failed or when no edge is configured; and exactly once, as
    its last call, when an edge is configured and it returns from a list
    that is not empty. *)
Theorem deleteMany_purges_at_most_once (requests : list RequestInfo) (w : World) :
  let run := CloudflareR2Cache.deleteMany env this requests w in
  let evs := emitted w run.2 in
  length (List.filter is_purge evs) <= 1
  /\ (forall call, run.1 = Throw (StoreError call) -> List.filter is_purge evs = [])
  /\ (CloudflareR2Cache.this_CFCache this = None -> List.filter is_purge evs = [])
  /\ (forall cf d,
        CloudflareR2Cache.this_CFCache this = Some cf ->
        requests ≠ [] ->
        run.1 = Return d ->
        exists before,
          evs = before ++ [purge_request cf (files (purge_urls cf requests))]
          /\ List.filter is_purge before = []).
Proof.
  intros run evs. subst run evs.
  destruct (decide (requests = [])) as [-> | Hne].
  { cbn [CloudflareR2Cache.deleteMany length Nat.eqb ret fst snd].
    rewrite (emitted_app w w [] (eq_sym (app_nil_r _))). cbn.
    repeat split; auto. intros; congruence. }
  destruct (deleteMany_unfold env this requests Hne) as (chunks & _ & _ & Hrun).
  rewrite Hrun.
  destruct (invalidate_purges chunks (fun cf => files (purge_urls cf requests)) w)
    as (before & tail & Hlog & Hbefore & Hend).
  destruct Hend as [(-> & Hwhy) | (cf & Hcf & -> & Hnot)].
  - rewrite (purges_of_run _ _ _ _ Hlog Hbefore) by constructor.
    split; [cbn; lia|]. split; [reflexivity|]. split; [reflexivity|].
    intros cf d Hcf _ Hd.
    destruct Hwhy as [[call Hcall] | Hnone]; congruence.
  - rewrite (purges_of_run _ _ _ _ Hlog Hbefore) by (repeat constructor).
    split; [cbn; lia|]. split; [intros call Hcall; destruct (Hnot _ Hcall)|].
    split; [congruence|]. intros cf' d Hcf' _ _.
    assert (cf' = cf) as -> by congruence.
    exists before. split; [|exact Hbefore].
    apply (emitted_app w _ _ Hlog).
Qed.

End DeleteManyMore.

(* ===================================================================== *)
(** * Further properties of [keys] and [deleteAll]                        *)
(* ===================================================================== *)

Section KeysMore.
Context `{Platform}.
Variable env : Env.
Variable this : CloudflareR2Cache.t.

(** The loop over the pages: it lists them in order until one fails; it
    returns what the pages held when none did. *)
Lemma drain_run Prefix pages :
  forall page Objects w,
    exists c evs,
      CloudflareR2Cache.drain env this Prefix pages page Objects w =
        (c, {| objects := objects w; log := log w ++ evs |})
      /\ ((c = Return (Objects ++ flat_map page_objects pages)
           /\ evs = listing_calls this Prefix page (length pages))
          \/ (exists n,
                 n < length pages
                 /\ c = Throw (StoreError (length (log w) + n))
                 /\ fault env (length (log w) + n) = true
                 /\ evs = listing_calls this Prefix page (S n)))
      /\ ((forall n, fault env n = false) ->
          c = Return (Objects ++ flat_map page_objects pages)).
Proof.
  induction pages as [|p pages IH]; intros page Objects w.
  - exists (Return Objects), []. cbn. rewrite !app_nil_r, world_eta.
    split; [reflexivity|]. split; [left|]; auto.
  - cbn [CloudflareR2Cache.drain]. unfold bind, emit. cbn [log objects].
    destruct (fault env (length (log w))) eqn:Hf.
    + eexists _, [_]. split; [reflexivity|]. split.
      * right. exists 0. rewrite Nat.add_0_r. cbn [length].
        repeat split; [lia | assumption].
      * intros Hc. rewrite Hc in Hf. discriminate.
    + match goal with
      | |- context [CloudflareR2Cache.drain env this Prefix pages ?n ?o ?w1] =>
          destruct (IH n o w1) as (c & evs & -> & Hend & Hcalm)
      end.
      cbn [log objects] in *. rewrite <- app_assoc.
      eexists _, (_ :: evs). split; [reflexivity|].
      fold (page_objects p) in *. rewrite <- app_assoc in Hend, Hcalm.
      split; [|exact Hcalm].
      destruct Hend as [[-> ->] | (n & Hn & -> & Hfn & ->)].
      * left. split; reflexivity.
      * right. exists (S n). rewrite length_app in *. cbn [length] in *.
        replace (length (log w) + 1 + n) with (length (log w) + S n) in * by lia.
        repeat split; [lia | assumption].
Qed.

Lemma list_pages_objects (w : World) Prefix :
  flat_map page_objects (list_pages (CloudflareR2Cache.S3 this) w Prefix 1000)
  = omap CloudflareR2Cache.keep_keyed
      (map (fun k => {| Key := Some k |}) (bucket_keys w Prefix)).
Proof.
  unfold list_pages. fold (bucket_keys w Prefix).
  destruct (bucket_keys w Prefix) as [|k ks] eqn:Hks; [reflexivity|].
  rewrite <- Hks. clear Hks.
  rewrite <- (cut_pages_concat 1000 ltac:(lia) (length (bucket_keys w Prefix))
                (bucket_keys w Prefix) ltac:(lia)) at 3.
  induction (cut_pages _ _ _) as [|c cs IH]; [reflexivity|].
  cbn [map flat_map concat]. rewrite IH, map_app, omap_app. reflexivity.
Qed.

Lemma truthy_keys (ks : list string) :
  omap CloudflareR2Cache.truthy_key
    (omap CloudflareR2Cache.keep_keyed (map (fun k => {| Key := Some k |}) ks))
  = List.filter JS.truthy ks.
Proof.
  induction ks as [|k ks IH]; [reflexivity|].
  destruct k as [|c s]; [exact IH|].
  change (String c s
          :: omap CloudflareR2Cache.truthy_key
               (omap CloudflareR2Cache.keep_keyed
                  (map (fun k => {| Key := Some k |}) ks))
          = String c s :: List.filter JS.truthy ks).
  f_equal. exact IH.
Qed.

Lemma list_pages_nonempty (w : World) Prefix :
  1 <= length (list_pages (CloudflareR2Cache.S3 this) w Prefix 1000).
Proof.
  unfold list_pages. destruct (List.filter _ _) as [|k ks]; cbn; lia.
Qed.

(** [keys] run: a prefix of the listing calls, then either the truthy keys
    of the bucket under the prefix, or the failure of the last call made. *)
Lemma keys_run (request : option RequestInfo) (w : World) :
  exists c evs,
    CloudflareR2Cache.keys env this request w =
      (c, {| objects := objects w; log := log w ++ evs |})
    /\ 1 <= length evs
    /\ evs = listing_calls this (_getKey request) 0 (length evs)
    /\ (c = Return (List.filter JS.truthy (bucket_keys w (_getKey request)))
        \/ (c = Throw (StoreError (length (log w) + length evs - 1))
            /\ fault env (length (log w) + length evs - 1) = true))
    /\ ((forall n, fault env n = false) ->
        c = Return (List.filter JS.truthy (bucket_keys w (_getKey request)))).
Proof.
  unfold CloudflareR2Cache.keys. unfold bind at 1, world at 1.
  unfold bind at 1.
  destruct (drain_run (_getKey request)
              (list_pages (CloudflareR2Cache.S3 this) w (_getKey request) 1000)
              0 [] w) as (c & evs & -> & Hend & Hcalm).
  pose proof (list_pages_nonempty w (_getKey request)) as Hpages.
  rewrite app_nil_l, list_pages_objects in Hend, Hcalm.
  destruct Hend as [[-> ->] | (n & Hn & -> & Hfn & ->)].
  - eexists _, _. split; [reflexivity|]. unfold listing_calls.
    rewrite length_map, length_seq. split; [exact Hpages|].
    split; [reflexivity|]. cbn [ret]. rewrite truthy_keys. split; auto.
  - eexists _, _. split; [reflexivity|]. unfold listing_calls.
    rewrite length_map, length_seq. split; [lia|]. split; [reflexivity|].
    replace (length (log w) + S n - 1) with (length (log w) + n) by lia.
    split; [right; auto|]. intros Hc. specialize (Hcalm Hc). discriminate.
Qed.

Lemma elem_of_truthy_keys (w : World) Prefix k :
  k ∈ List.filter JS.truthy (bucket_keys w Prefix)
  <-> is_Some (objects w !! k) /\ listed Prefix k = true.
Proof.
  unfold bucket_keys, listed.
  rewrite list_elem_of_In, !filter_In, <- list_elem_of_In.
  rewrite list_elem_of_fmap, andb_true_iff. split.
  - intros [[[[k' o] [-> Hin]] Hp] Ht].
    apply elem_of_map_to_list in Hin. cbn. eauto.
  - intros [[o Ho] [Hp Ht]]. repeat split; [|assumption..].
    exists (k, o). split; [reflexivity | now apply elem_of_map_to_list].
Qed.

Lemma filter_purge_listing Prefix page n :
  List.filter is_purge (listing_calls this Prefix page n) = [].
Proof.
  unfold listing_calls. induction (seq page n) as [|i l IH];
    [reflexivity | exact IH].
Qed.

(** X11. [keys] only lists: it leaves the bucket as it is, makes at least one
    listing call and no other call, for the pages in order under the prefix
    of its request; when it throws, the last call made is the one that
    failed. *)
Theorem keys_only_lists (request : option RequestInfo) (w : World) :
  let run := CloudflareR2Cache.keys env this request w in
  objects run.2 = objects w
  /\ (exists n, emitted w run.2 = listing_calls this (_getKey request) 0 (S n))
  /\ forall e, run.1 = Throw e ->
       e = StoreError (length (log run.2) - 1)
       /\ fault env (length (log run.2) - 1) = true.
Proof.
  intros run. subst run.
  destruct (keys_run request w) as (c & evs & -> & Hlen & Hevs & Hend & _).
  cbn [fst snd objects log]. split; [reflexivity|]. split.
  - exists (length evs - 1). rewrite (emitted_app w {| objects := objects w; log := log w ++ evs |} evs
               eq_refl).
    replace (S (length evs - 1)) with (length evs) by lia. exact Hevs.
  - intros e ->. rewrite length_app.
    destruct Hend as [[=] | [[= ->] Hf]]. split; [reflexivity | exact Hf].
Qed.

(** X12. When no call fails, [keys] returns each key of the bucket that starts
    with the prefix of its request and is not the empty string, once, and
    nothing else. *)
Theorem keys_lists_bucket (request : option RequestInfo) (w : World) :
  (forall n, fault env n = false) ->
  exists ks,
    (CloudflareR2Cache.keys env this request w).1 = Return ks
    /\ NoDup ks
    /\ forall k, k ∈ ks <-> is_Some (objects w !! k)
                           /\ listed (_getKey request) k = true.
Proof.
  intros Hc.
  destruct (keys_run request w) as (c & evs & -> & _ & _ & _ & Hcalm).
  rewrite (Hcalm Hc). eexists. split; [reflexivity|]. split.
  - apply NoDup_ListNoDup, List.NoDup_filter, List.NoDup_filter, NoDup_ListNoDup.
    apply NoDup_fst_map_to_list.
  - intros k. apply elem_of_truthy_keys.
Qed.

End KeysMore.

Section DeleteAllMore.
Context `{Platform}.
Variable env : Env.
Variable this : CloudflareR2Cache.t.

Lemma deleteAll_unfold (w : World) :
  CloudflareR2Cache.deleteAll env this w =
    match CloudflareR2Cache.keys env this None w with
    | (Return ks, w1) =>
        if length ks =? 0 then (Return [], w1)
        else
          match chunkArray (map RString ks) 1000 with
          | Some chunks =>
              invalidate env this chunks (fun _ => purge_everything true) w1
          | None => (Throw (RangeError "Maximum call stack size exceeded"), w1)
          end
    | (Throw e, w1) => (Throw e, w1)
    end.
Proof.
  unfold CloudflareR2Cache.deleteAll. unfold bind at 1.
  destruct (CloudflareR2Cache.keys env this None w) as [[ks|e] w1];
    [|reflexivity].
  destruct (length ks =? 0); [reflexivity|].
  destruct (chunkArray (map RString ks) 1000); reflexivity.
Qed.

Lemma requested_strings (ks : list string) : requested (map RString ks) = ks.
Proof.
  unfold requested. induction ks as [|k ks IH]; [reflexivity|].
  change (k :: omap (fun req => _getKey (Some req)) (map RString ks) = k :: ks).
  f_equal. exact IH.
Qed.

Lemma listed_all (k : string) : listed None k = true <-> k ≠ EmptyString.
Proof.
  unfold listed. destruct k; cbn; split; congruence.
Qed.

(** X13. When no call fails, [deleteAll] returns and leaves no object in the
    bucket, but for one stored under the empty key, which [keys] does not
    return. *)
Theorem deleteAll_empties (w : World) :
  (forall n, fault env n = false) ->
  (exists d, (CloudflareR2Cache.deleteAll env this w).1 = Return d)
  /\ forall k,
       objects (CloudflareR2Cache.deleteAll env this w).2 !! k
       = if decide (k = EmptyString) then objects w !! k else None.
Proof.
  intros Hc. rewrite deleteAll_unfold.
  destruct (keys_run env this None w) as (c & evs & -> & _ & _ & _ & Hcalm).
  rewrite (Hcalm Hc). clear Hcalm. change (_getKey None) with (@None string).
  pose proof (fun k => elem_of_truthy_keys w None k) as Hks.
  set (ks := List.filter JS.truthy (bucket_keys w None)) in *.
  set (w1 := {| objects := objects w; log := log w ++ evs |}).
  assert (forall k, k ≠ EmptyString -> k ∉ ks -> objects w !! k = None) as Hout.
  { intros k Hk Hnot. destruct (objects w !! k) as [o|] eqn:Ho; [|reflexivity].
    destruct Hnot. apply Hks. split; [eauto | now apply listed_all]. }
  assert (EmptyString ∉ ks) as Hempty.
  { intros Hin. apply Hks in Hin as [_ Hl]. apply listed_all in Hl. congruence. }
  clearbody ks. destruct (decide (ks = [])) as [-> | Hne].
  { cbn [length Nat.eqb fst snd objects]. split; [eauto|]. intros k.
    destruct (decide (k = EmptyString)); [reflexivity|].
    apply Hout; [assumption | apply not_elem_of_nil]. }
  replace (length ks =? 0) with false
    by (symmetry; apply Nat.eqb_neq; destruct ks; [congruence | cbn; lia]).
  destruct (chunkArray_spec (map RString ks) 1000 ltac:(lia))
    as (chunks & -> & Hcat & _).
  destruct (invalidate_spec env this chunks (fun _ => purge_everything true) w1)
    as (c' & w' & evs' & tail & -> & Hobj & _ & _ & Hend).
  cbn [fst snd]. rewrite Hobj.
  destruct (delete_chunks_objects env this chunks w1) as [Hany Hgone].
  rewrite Hcat, requested_strings in Hany, Hgone.
  destruct (Hgone Hc) as [[d Hd] Hnone]. split.
  - destruct Hend as [(_ & -> & _) | (cf & d' & _ & Hd' & _ & ->)]; [eauto|].
    rewrite Hc. eauto.
  - intros k. destruct (decide (k = EmptyString)) as [-> | Hk].
    + destruct (Hany EmptyString) as [Heq | [_ Hin]]; [exact Heq | contradiction].
    + destruct (decide (k ∈ ks)) as [Hin | Hnot]; [auto|].
      destruct (Hany k) as [Heq | [Hn _]]; [|exact Hn].
      rewrite Heq. apply Hout; assumption.
Qed.

(** X14. [deleteAll] asks the edge to purge at most once, and then to purge
    everything and never a list of files; it does so as its last call
    whenever an edge is configured, it returns, and the bucket held an
    object under a key that is not empty. *)
Theorem deleteAll_purges_everything (w : World) :
  let run := CloudflareR2Cache.deleteAll env this w in
  let evs := emitted w run.2 in
  length (List.filter is_purge evs) <= 1
  /\ (forall e, e ∈ List.filter is_purge evs ->
        exists cf, CloudflareR2Cache.this_CFCache this = Some cf
                   /\ e = purge_request cf (purge_everything true))
  /\ (forall cf d k,
        CloudflareR2Cache.this_CFCache this = Some cf ->
        run.1 = Return d ->
        k ≠ EmptyString ->
        is_Some (objects w !! k) ->
        exists before,
          evs = before ++ [purge_request cf (purge_everything true)]
          /\ List.filter is_purge before = []).
Proof.
  intros run evs. subst run evs. rewrite deleteAll_unfold.
  destruct (keys_run env this None w) as (c & evs & -> & _ & Hevs & Hend & _).
  change (_getKey None) with (@None string) in *.
  set (w1 := {| objects := objects w; log := log w ++ evs |}).
  assert (List.filter is_purge evs = []) as Hlist
    by (rewrite Hevs; apply filter_purge_listing).
  assert (List.filter is_purge (emitted w w1) = []) as Hquiet.
  { apply (purges_of_run w w1 evs []); [|exact Hlist|constructor].
    cbn. now rewrite app_nil_r. }
  pose proof (fun k => elem_of_truthy_keys w None k) as Hks.
  destruct Hend as [-> | [-> _]].
  2:{ cbn [fst snd]. rewrite Hquiet. cbn. split; [lia|].
      split; [intros e He; inversion He | intros; discriminate]. }
  set (ks := List.filter JS.truthy (bucket_keys w None)) in *.
  clearbody ks. destruct (decide (ks = [])) as [-> | Hne].
  { cbn [length Nat.eqb fst snd]. rewrite Hquiet. cbn. split; [lia|].
    split; [intros e He; inversion He|]. intros cf d k _ _ Hk Hsome.
    assert (k ∈ @nil string) as Hin
      by (apply Hks; split; [assumption | now apply listed_all]).
    inversion Hin. }
  replace (length ks =? 0) with false
    by (symmetry; apply Nat.eqb_neq; destruct ks; [congruence | cbn; lia]).
  destruct (chunkArray_spec (map RString ks) 1000 ltac:(lia))
    as (chunks & -> & _).
  destruct (invalidate_purges env this chunks (fun _ => purge_everything true) w1)
    as (before & tail & Hlog & Hbefore & Htail).
  cbn [log w1] in Hlog. rewrite <- app_assoc, (app_assoc evs) in Hlog.
  assert (List.filter is_purge (evs ++ before) = []) as Hpre
    by (rewrite List.filter_app, Hlist, Hbefore; reflexivity).
  destruct Htail as [(-> & Hwhy) | (cf & Hcf & -> & Hnot)].
  - rewrite (purges_of_run _ _ _ _ Hlog Hpre) by constructor.
    split; [cbn; lia|]. split; [intros e He; inversion He|].
    intros cf d k Hcf Hd _ _.
    destruct Hwhy as [[call Hcall] | Hnone]; congruence.
  - rewrite (purges_of_run _ _ _ _ Hlog Hpre) by (repeat constructor).
    split; [cbn; lia|]. split.
    + intros e He. apply list_elem_of_singleton in He. eauto.
    + intros cf' d k Hcf' _ _ _. assert (cf' = cf) as -> by congruence.
      exists (evs ++ before). split; [|exact Hpre].
      apply (emitted_app w _ _ Hlog).
Qed.

End DeleteAllMore.

(* ===================================================================== *)
(** * Further properties of [match] and [put]                             *)
(* ===================================================================== *)

Section MatchPutMore.
Context `{Platform}.
Variable env : Env.
Variable this : CloudflareR2Cache.t.

Lemma new_Response_throws b init e :
  new_Response b init = Throw e ->
  e = RangeError "Invalid status code"
  \/ e = TypeError "Response with null body status cannot have body".
Proof.
  unfold new_Response. destruct (init_status init) as [s|]; [|intros [= <-]; auto].
  destruct (negb _); [intros [= <-]; auto|].
  destruct (_ && _); [intros [= <-]; auto | discriminate].
Qed.

(** [match] under a usable key: one [get] call, and the outcome by what
    the store answers. *)
Lemma match_run (request : RequestInfo) (k : string) (w : World) :
  _getKey (Some request) = Some k ->
  JS.truthy k = true ->
  exists c,
    CloudflareR2Cache.match_ env this request w =
      (c, {| objects := objects w; log := log w ++ [R2_get_call k] |})
    /\ (fault env (length (log w)) = true ->
        c = Throw (StoreError (length (log w))))
    /\ (fault env (length (log w)) = false -> objects w !! k = None ->
        c = Return None)
    /\ (forall call, c = Throw (StoreError call) ->
        call = length (log w) /\ fault env call = true).
Proof.
  intros Hkey Htruthy. unfold CloudflareR2Cache.match_.
  rewrite Hkey, Htruthy. cbn [negb].
  unfold R2_get, bind, emit, world, ret. cbn [log objects].
  destruct (fault env (length (log w))) eqn:Hf.
  { eexists. split; [reflexivity|]. split; [reflexivity|].
    split; [discriminate|]. intros call [= <-]. split; [reflexivity | exact Hf]. }
  cbn [objects log]. destruct (objects w !! k) as [o|] eqn:Ho.
  - unfold CloudflareR2Cache.lift.
    match goal with
    | |- context [new_Response ?b ?i] => destruct (new_Response b i) eqn:Hr
    end.
    + eexists. split; [reflexivity|]. split; [discriminate|].
      split; [discriminate|]. discriminate.
    + eexists. split; [reflexivity|]. split; [discriminate|].
      split; [discriminate|]. intros call [= ->].
      apply new_Response_throws in Hr as [Hr | Hr]; discriminate.
  - eexists. split; [reflexivity|]. split; [discriminate|].
    split; [reflexivity|]. discriminate.
Qed.

Lemma match_invalid (request : RequestInfo) (w : World) :
  no_key (_getKey (Some request)) ->
  CloudflareR2Cache.match_ env this request w
  = (Throw (Error "Invalid cache key from request."), w).
Proof.
  unfold CloudflareR2Cache.match_, no_key.
  destruct (_getKey (Some request)) as [k|]; [|reflexivity].
  intros ->. reflexivity.
Qed.

Lemma key_cases (k : option string) :
  no_key k \/ exists s, k = Some s /\ JS.truthy s = true.
Proof.
  destruct k as [s|]; [|left; exact I].
  destruct (JS.truthy s) eqn:Hs; [right; eauto | left; exact Hs].
Qed.

(** X15. [match] never writes: it leaves the bucket as it is, and it makes no
    call at all or the one [get] for the key of its request; it throws a
    store error only when that call failed. *)
Theorem match_only_reads (request : RequestInfo) (w : World) :
  let run := CloudflareR2Cache.match_ env this request w in
  objects run.2 = objects w
  /\ (emitted w run.2 = []
      \/ exists k, _getKey (Some request) = Some k
                   /\ emitted w run.2 = [R2_get_call k])
  /\ forall call, run.1 = Throw (StoreError call) ->
       call = length (log w) /\ fault env call = true.
Proof.
  intros run. subst run.
  destruct (key_cases (_getKey (Some request))) as [Hno | (k & Hk & Ht)].
  - rewrite (match_invalid request w Hno). cbn [fst snd].
    split; [reflexivity|]. split; [|discriminate]. left.
    apply (emitted_app w w []). now rewrite app_nil_r.
  - destruct (match_run request k w Hk Ht) as (c & -> & Hbad & _ & Hstore).
    cbn [fst snd objects]. split; [reflexivity|]. split.
    + right. exists k. split; [exact Hk|]. now apply emitted_app.
    + intros call ->. apply Hstore. reflexivity.
Qed.

(** X16. A miss: under a usable key the bucket does not hold, with a store that
    answers, [match] returns [undefined] after its one [get] call. *)
Theorem match_miss (request : RequestInfo) (k : string) (w : World) :
  _getKey (Some request) = Some k ->
  JS.truthy k = true ->
  objects w !! k = None ->
  fault env (length (log w)) = false ->
  CloudflareR2Cache.match_ env this request w
  = (Return None, {| objects := objects w; log := log w ++ [R2_get_call k] |}).
Proof.
  intros Hk Ht Hnone Hok.
  destruct (match_run request k w Hk Ht) as (c & -> & _ & Hmiss & _).
  rewrite (Hmiss Hok Hnone). reflexivity.
Qed.



(** [put] under a usable key is the one [put] call of the store. *)
Lemma put_run (request : Request) (response : Response) (w : World) :
  JS.truthy (URL_pathname (url request)) = true ->
  exists o,
    CloudflareR2Cache.put env this request response w =
      (if fault env (length (log w))
       then Throw (StoreError (length (log w)))
       else Return {| key := URL_pathname (url request);
                      size := N.of_nat (length (arrayBuffer response));
                      etag := stamp_etag env (arrayBuffer response);
                      httpEtag := String (ascii_of_N 34)
                                    (stamp_etag env (arrayBuffer response))
                                  +:+ String (ascii_of_N 34) EmptyString;
                      uploaded := stamp_uploaded env (length (log w));
                      httpMetadata := Some (put_httpMetadata o);
                      customMetadata := Some (put_customMetadata o);
                      body := None |},
       {| objects :=
            if fault env (length (log w)) then objects w
            else <[URL_pathname (url request) :=
                     {| key := URL_pathname (url request);
                        size := N.of_nat (length (arrayBuffer response));
                        etag := stamp_etag env (arrayBuffer response);
                        httpEtag := String (ascii_of_N 34)
                                      (stamp_etag env (arrayBuffer response))
                                    +:+ String (ascii_of_N 34) EmptyString;
                        uploaded := stamp_uploaded env (length (log w));
                        httpMetadata := Some (put_httpMetadata o);
                        customMetadata := Some (put_customMetadata o);
                        body := Some (arrayBuffer response) |}]> (objects w);
          log := log w ++ [R2_put_call (URL_pathname (url request))
                             (arrayBuffer response) o] |})
    /\ put_httpMetadata o = serializeHTTPMetadata (response_headers response)
    /\ put_customMetadata o =
         {[ "statusCode" := JS.Number_toString (status response);
            "statusText" := statusText response ]}.
Proof.
  intros Hkey. unfold CloudflareR2Cache.put. cbn [_getKey].
  rewrite Hkey. cbn [negb]. unfold R2_put, bind, emit, world, set_objects, ret.
  cbn [log objects].
  exists {| put_httpMetadata := serializeHTTPMetadata (response_headers response);
            put_customMetadata :=
              {[ "statusCode" := JS.Number_toString (status response);
                 "statusText" := statusText response ]} |}.
  split; [|split; reflexivity].
  destruct (fault env (length (log w))); reflexivity.
Qed.

Lemma put_invalid (request : Request) (response : Response) (w : World) :
  JS.truthy (URL_pathname (url request)) = false ->
  CloudflareR2Cache.put env this request response w
  = (Throw (Error "Invalid cache key from request."), w).
Proof.
  intros Hkey. unfold CloudflareR2Cache.put. cbn [_getKey]. rewrite Hkey.
  reflexivity.
Qed.

(** X19. [put] writes one key: every other key keeps what it had; a [put] that
    throws has written nothing; a [put] that returns has stored the whole
    body of the response under the path of the request, and returns the
    descriptor of that object, by its key and its size, without a body. *)
Theorem put_writes_one_key (request : Request) (response : Response)
    (w : World) :
  let run := CloudflareR2Cache.put env this request response w in
  (forall k, k ≠ URL_pathname (url request) ->
             objects run.2 !! k = objects w !! k)
  /\ (forall e, run.1 = Throw e -> objects run.2 = objects w)
  /\ (forall d, run.1 = Return d ->
        key d = URL_pathname (url request)
        /\ size d = N.of_nat (length (arrayBuffer response))
        /\ body d = None
        /\ exists stored,
             objects run.2 !! URL_pathname (url request) = Some stored
             /\ body stored = Some (arrayBuffer response)
             /\ size stored = size d
             /\ httpEtag stored = httpEtag d).
Proof.
  intros run. subst run.
  destruct (JS.truthy (URL_pathname (url request))) eqn:Hkey.
  - destruct (put_run request response w Hkey) as (o & -> & _).
    cbn [fst snd objects]. destruct (fault env (length (log w))).
    + split; [reflexivity|]. split; [reflexivity | discriminate].
    + split; [intros k Hk; now rewrite lookup_insert_ne by congruence|].
      split; [discriminate|]. intros d [= <-]. cbn.
      repeat split. eexists. split; [apply lookup_insert_eq|]. cbn. auto.
  - rewrite (put_invalid request response w Hkey). cbn [fst snd].
    split; [reflexivity|]. split; [reflexivity | discriminate].
Qed.

Lemma lookup_computed (h : Headers) (a b c d : string) name :
  JS.lower name ∉ computed_fields ->
  Headers_get
    (Headers_set
       (Headers_set (Headers_set (Headers_set h "etag" a) "Content-Length" b)
          "Last-Modified" c)
       "CDN-Cache-Control" d) name
  = Headers_get h name.
Proof.
  intros Hname. unfold computed_fields in Hname.
  rewrite !not_elem_of_cons in Hname. destruct Hname as (? & ? & ? & ? & _).
  unfold Headers_get, Headers_set. lower_literals.
  now rewrite !lookup_insert_ne by congruence.
Qed.

(** X20. What comes back of a response stored by [put] and matched under the
    same key, when the store answers and the status allows a body: the
    whole body; its length as [Content-Length]; of the headers that
    [match] does not compute, the six covered ones when their value is not
    empty, the expiry date in UTC form; and no other header. *)
Theorem put_then_match_content (request : Request) (response : Response)
    (again : RequestInfo) (w : World) :
  JS.truthy (URL_pathname (url request)) = true ->
  _getKey (Some again) = Some (URL_pathname (url request)) ->
  fault env (length (log w)) = false ->
  fault env (S (length (log w))) = false ->
  status_with_body (status response) ->
  exists d w1 r w2,
    CloudflareR2Cache.put env this request response w = (Return d, w1)
    /\ CloudflareR2Cache.match_ env this again w1 = (Return (Some r), w2)
    /\ response_body r = Some (arrayBuffer response)
    /\ Headers_get (response_headers r) "Content-Length"
       = Some (JS.Number_toString (Z.of_nat (length (arrayBuffer response))))
    /\ forall name,
         JS.lower name ∉ computed_fields ->
         Headers_get (response_headers r) name
         = if bool_decide (JS.lower name ∈ codec_fields)
           then through_codec (JS.lower name)
                  <$> JS.or_undefined (Headers_get (response_headers response) name)
           else None.
Proof.
  intros Hkey Hagain Hput Hget Hacc.
  destruct (put_run request response w Hkey) as (o & Hrun & Hhttp & Hcustom).
  rewrite Hput in Hrun. eexists _, _, _, _. split; [exact Hrun|].
  match type of Hrun with
  | _ = (_, {| objects := <[_ := ?st]> _; log := _ |}) => set (stored := st) in *
  end.
  assert (hit_status stored = Some (status response)) as Hstatus.
  { unfold hit_status. cbn [customMetadata stored]. rewrite Hcustom.
    cbn [mbind option_bind]. rewrite (proj1 (lookup_custom _ _)).
    now rewrite JSFacts.truthy_Number_toString, JSFacts.parseInt_Number_toString. }
  rewrite (match_spec env this again _ stored _ Hagain Hkey).
  - rewrite (new_Response_accepts _ _ (status response)) by assumption.
    cbn [map_completion]. split; [reflexivity|].
    cbn [response_body response_headers init_headers body stored].
    split; [reflexivity|]. split.
    + unfold Headers_get, Headers_set. lower_literals.
      do 2 (rewrite lookup_insert_ne by discriminate).
      rewrite lookup_insert_eq. cbn [size]. now rewrite nat_N_Z.
    + intros name Hname. rewrite (lookup_computed _ _ _ _ _ name Hname).
      cbn [httpMetadata]. rewrite Hhttp. unfold Headers_get at 1.
      rewrite codec_lookup. reflexivity.
  - cbn [objects]. apply lookup_insert_eq.
  - cbn [log]. rewrite length_app. cbn. now rewrite Nat.add_1_r.
Qed.

(** X21. A response whose status allows no body (204, 205, 304) can be stored
    but not matched: [put] stores a body, empty or not, and the [Response]
    constructor refuses a body with such a status, so [match] throws a
    [TypeError]. *)
Theorem put_null_body_status_unmatchable (request : Request)
    (response : Response) (again : RequestInfo) (w : World) :
  JS.truthy (URL_pathname (url request)) = true ->
  _getKey (Some again) = Some (URL_pathname (url request)) ->
  fault env (length (log w)) = false ->
  fault env (S (length (log w))) = false ->
  (200 <= status response)%Z ->
  null_body_status (status response) = true ->
  exists d w1 w2,
    CloudflareR2Cache.put env this request response w = (Return d, w1)
    /\ CloudflareR2Cache.match_ env this again w1
       = (Throw (TypeError "Response with null body status cannot have body"), w2).
Proof.
  intros Hkey Hagain Hput Hget Hlow Hnull.
  destruct (put_run request response w Hkey) as (o & Hrun & Hhttp & Hcustom).
  rewrite Hput in Hrun. eexists _, _, _. split; [exact Hrun|].
  match type of Hrun with
  | _ = (_, {| objects := <[_ := ?st]> _; log := _ |}) => set (stored := st) in *
  end.
  assert (hit_status stored = Some (status response)) as Hstatus.
  { unfold hit_status. cbn [customMetadata stored]. rewrite Hcustom.
    cbn [mbind option_bind]. rewrite (proj1 (lookup_custom _ _)).
    now rewrite JSFacts.truthy_Number_toString, JSFacts.parseInt_Number_toString. }
  rewrite (match_spec env this again _ stored _ Hagain Hkey).
  - unfold new_Response. cbn [init_status]. rewrite Hstatus.
    assert (status response <= 599)%Z as Hhigh.
    { unfold null_body_status in Hnull. rewrite !orb_true_iff in Hnull. lia. }
    replace ((200 <=? status response) && (status response <=? 599))%Z with true
      by (symmetry; apply andb_true_iff; lia).
    rewrite Hnull. cbn [negb andb body stored]. reflexivity.
  - cbn [objects]. apply lookup_insert_eq.
  - cbn [log]. rewrite length_app. cbn. now rewrite Nat.add_1_r.
Qed.

(** X22. A response stored by [put], deleted by [delete] and then matched,
    under the same request and with no call failing, is a miss. *)
Theorem put_delete_match_misses (request : Request) (response : Response)
    (w : World) :
  (forall n, fault env n = false) ->
  JS.truthy (URL_pathname (url request)) = true ->
  exists d w1 gone w2 w3,
    CloudflareR2Cache.put env this request response w = (Return d, w1)
    /\ CloudflareR2Cache.delete env this (RRequest request) w1 = (Return gone, w2)
    /\ CloudflareR2Cache.match_ env this (RRequest request) w2 = (Return None, w3)
    /\ objects w3 = delete (URL_pathname (url request)) (objects w).
Proof.
  intros Hc Hkey.
  destruct (put_run request response w Hkey) as (o & Hrun & _).
  rewrite Hc in Hrun. eexists _, _.
  match type of Hrun with
  | _ = (_, ?w1) => set (w1' := w1) in *
  end.
  destruct (deleteMany_objects env this [RRequest request] w1') as [_ Hcalm].
  destruct (Hcalm Hc) as [[gone Hgone] Hobj].
  change (CloudflareR2Cache.deleteMany env this [RRequest request] w1')
    with (CloudflareR2Cache.delete env this (RRequest request) w1') in *.
  destruct (CloudflareR2Cache.delete env this (RRequest request) w1')
    as [c w2] eqn:Hdel.
  cbn [fst snd] in Hgone, Hobj. subst c.
  change (foldr remove_key (objects w1') (identifiers [RRequest request]))
    with (delete (URL_pathname (url request)) (objects w1')) in Hobj.
  exists gone, w2. eexists. split; [exact Hrun|]. split; [exact Hdel|].
  destruct (match_run (RRequest request) (URL_pathname (url request)) w2
              eq_refl Hkey) as (c & -> & _ & Hmiss & _).
  rewrite (Hmiss (Hc _)) by (rewrite Hobj; apply lookup_delete_eq).
  split; [reflexivity|]. cbn [objects]. rewrite Hobj. cbn [objects w1'].
  apply delete_insert_eq.
Qed.

End MatchPutMore.

(* ===================================================================== *)
(** * The constructor                                                     *)
(* ===================================================================== *)

Section ConstructorMore.
Context `{Platform}.
Variable env : Env.

(** X23. A cache as the constructor makes it sends its batch deletes to the
    bucket named in the options; with an edge configuration, whatever purge
    [deleteMany] requests goes by POST to the purge endpoint of the
    configured zone, with the configured token as bearer, for the
    configured origin followed by the key of each request; without one, it
    requests no purge. *)
Theorem constructed_cache_calls (o : CloudflareR2Cache.CloudflareR2CacheOptions)
    (requests : list RequestInfo) (w : World) :
  let this := CloudflareR2Cache.constructor o in
  let evs := emitted w (CloudflareR2Cache.deleteMany env this requests w).2 in
  (forall e, e ∈ evs -> is_batch_delete e = true ->
             exists Objects,
               e = S3_DeleteObjects (CloudflareR2Cache.opt_bucket o) Objects)
  /\ match CloudflareR2Cache.opt_cfConfig o with
     | Some c =>
         forall e, e ∈ evs -> is_purge e = true ->
           e = fetch_call
                 ("https://api.cloudflare.com/client/v4/zones/"
                  +:+ CloudflareR2Cache.zoneId c +:+ "/purge_cache")
                 {| method := "POST";
                    headers :=
                      [("Content-Type", "application/json");
                       ("Authorization",
                        "Bearer " +:+ CloudflareR2Cache.apiToken c)];
                    init_body :=
                      files (map (fun req =>
                                    CloudflareR2Cache.origin c
                                    +:+ JS.interpolate (_getKey (Some req)))
                                 requests) |}
     | None => forall e, e ∈ evs -> is_purge e = false
     end.
Proof.
  intros this evs. subst evs.
  destruct (decide (requests = [])) as [-> | Hne].
  { cbn [CloudflareR2Cache.deleteMany length Nat.eqb ret fst snd].
    rewrite (emitted_app w w [] (eq_sym (app_nil_r _))).
    split; [intros e He; inversion He|].
    destruct (CloudflareR2Cache.opt_cfConfig o); intros e He; inversion He. }
  destruct (deleteMany_unfold env this requests Hne) as (chunks & _ & _ & Hrun).
  rewrite Hrun.
  destruct (invalidate_spec env this chunks
              (fun cf => files (purge_urls cf requests)) w)
    as (c & w' & settled & tail & -> & _ & Hlog & Hall & Hend).
  cbn [snd]. rewrite (emitted_app w w' _ Hlog).
  assert (Forall (fun e => is_purge e = true) tail
          /\ match CloudflareR2Cache.opt_cfConfig o with
             | Some c =>
                 forall e, e ∈ tail ->
                   e = fetch_call
                         ("https://api.cloudflare.com/client/v4/zones/"
                          +:+ CloudflareR2Cache.zoneId c +:+ "/purge_cache")
                         {| method := "POST";
                            headers :=
                              [("Content-Type", "application/json");
                               ("Authorization",
                                "Bearer " +:+ CloudflareR2Cache.apiToken c)];
                            init_body :=
                              files (map (fun req =>
                                            CloudflareR2Cache.origin c
                                            +:+ JS.interpolate (_getKey (Some req)))
                                         requests) |}
             | None => tail = []
             end) as [Hpurge Htail].
  { destruct Hend as [(-> & _) | (cf & d & Hcf & _ & -> & _)].
    - split; [constructor|].
      destruct (CloudflareR2Cache.opt_cfConfig o);
        [intros e He; inversion He | reflexivity].
    - split; [repeat constructor|]. subst this.
      unfold CloudflareR2Cache.constructor in Hcf.
      cbn [CloudflareR2Cache.this_CFCache] in Hcf.
      destruct (CloudflareR2Cache.opt_cfConfig o) as [cfg|]; [|discriminate].
      injection Hcf as <-. intros e ->%list_elem_of_singleton.
      unfold purge_request, purge_urls, absolute_url, identifiers.
      cbn [CloudflareR2Cache.CF_url CloudflareR2Cache.CF_headers
           CloudflareR2Cache.CF_origin].
      rewrite map_map. reflexivity. }
  split.
  - intros e He Hb. rewrite !elem_of_app in He.
    destruct He as [He | [He | He]].
    + apply list_elem_of_fmap in He as (chunk & -> & _). eexists. reflexivity.
    + rewrite Forall_forall in Hall. specialize (Hall e He).
      destruct e; discriminate.
    + rewrite Forall_forall in Hpurge. specialize (Hpurge e He).
      destruct e; discriminate.
  - destruct (CloudflareR2Cache.opt_cfConfig o) as [cfg|].
    + intros e He Hp. rewrite !elem_of_app in He.
      destruct He as [He | [He | He]].
      * apply list_elem_of_fmap in He as (chunk & -> & _). discriminate.
      * rewrite Forall_forall in Hall. specialize (Hall e He).
        destruct e; discriminate.
      * apply Htail. exact He.
    + subst tail. intros e He. rewrite app_nil_r, elem_of_app in He.
      destruct He as [He | He].
      * apply list_elem_of_fmap in He as (chunk & -> & _). reflexivity.
      * rewrite Forall_forall in Hall. specialize (Hall e He).
        destruct e; try discriminate; reflexivity.
Qed.

End ConstructorMore.

(* ===================================================================== *)
(** * The further properties on the small platform                        *)
(* ===================================================================== *)

Lemma deleteMany_removes_requested_witness :
  (forall n, fault Small.shuffled n = false)
  /\ (exists d,
        (CloudflareR2Cache.deleteMany (H := Small.platform) Small.shuffled
           Small.cache (Small.paths 2001) Small.stored).1 = Return d)
  /\ objects (CloudflareR2Cache.deleteMany (H := Small.platform) Small.shuffled
                Small.cache (Small.paths 2001) Small.stored).2
     = foldr remove_key (objects Small.stored)
         (identifiers (H := Small.platform) (Small.paths 2001)).
Proof.
  split; [intros n; reflexivity|].
  exact (deleteMany_removes_requested (H := Small.platform) Small.shuffled
           Small.cache (Small.paths 2001) Small.stored (fun _ => eq_refl)).
Defined.

Lemma deleteMany_reports_witness :
  (CloudflareR2Cache.deleteMany (H := Small.platform) Small.calm Small.cache
     [RRequest Small.post] Small.stored).1
  = Return [{| Key := Some "/blog/post-1" |}]
  /\ Forall (fun o => o ∈ identifiers (H := Small.platform) [RRequest Small.post])
       [{| Key := Some "/blog/post-1" |}].
Proof.
  assert ((CloudflareR2Cache.deleteMany (H := Small.platform) Small.calm
             Small.cache [RRequest Small.post] Small.stored).1
          = Return [{| Key := Some "/blog/post-1" |}]) as Hrun by reflexivity.
  split; [exact Hrun|].
  exact (deleteMany_reports (H := Small.platform) Small.calm Small.cache
           [RRequest Small.post] Small.stored _ Hrun).
Defined.

Lemma delete_removes_one_witness :
  (forall n, fault Small.calm n = false)
  /\ _getKey (H := Small.platform) (Some (RRequest Small.post))
     = Some "/blog/post-1"
  /\ objects (CloudflareR2Cache.delete (H := Small.platform) Small.calm
                Small.cache (RRequest Small.post) Small.stored).2
     = delete "/blog/post-1" (objects Small.stored).
Proof.
  split; [intros n; reflexivity|]. split; [reflexivity|].
  exact (delete_removes_one (H := Small.platform) Small.calm Small.cache
           (RRequest Small.post) Small.stored "/blog/post-1"
           (fun _ => eq_refl) eq_refl).
Defined.

Lemma keys_lists_bucket_witness :
  (forall n, fault Small.calm n = false)
  /\ exists ks,
       (CloudflareR2Cache.keys (H := Small.platform) Small.calm Small.cache
          (Some (RString "/blog")) Small.stored).1 = Return ks
       /\ NoDup ks
       /\ forall k, k ∈ ks <-> is_Some (objects Small.stored !! k)
                              /\ listed (Some "/blog") k = true.
Proof.
  split; [intros n; reflexivity|].
  exact (keys_lists_bucket (H := Small.platform) Small.calm Small.cache
           (Some (RString "/blog")) Small.stored (fun _ => eq_refl)).
Defined.

Lemma deleteAll_empties_witness :
  (forall n, fault Small.calm n = false)
  /\ (exists d,
        (CloudflareR2Cache.deleteAll (H := Small.platform) Small.calm Small.cache
           Small.stored).1 = Return d)
  /\ forall k,
       objects (CloudflareR2Cache.deleteAll (H := Small.platform) Small.calm
                  Small.cache Small.stored).2 !! k
       = if decide (k = EmptyString) then objects Small.stored !! k else None.
Proof.
  split; [intros n; reflexivity|].
  exact (deleteAll_empties (H := Small.platform) Small.calm Small.cache
           Small.stored (fun _ => eq_refl)).
Defined.

Lemma match_miss_witness :
  _getKey (H := Small.platform) (Some (RRequest Small.missing)) = Some "/missing"
  /\ JS.truthy "/missing" = true
  /\ objects Small.stored !! "/missing" = None
  /\ fault Small.calm (length (log Small.stored)) = false
  /\ CloudflareR2Cache.match_ (H := Small.platform) Small.calm Small.cache
       (RRequest Small.missing) Small.stored
     = (Return None,
        {| objects := objects Small.stored;
           log := log Small.stored ++ [R2_get_call "/missing"] |}).
Proof.
  assert (objects Small.stored !! "/missing" = None) as Hnone by reflexivity.
  split; [reflexivity|]. split; [reflexivity|]. split; [exact Hnone|].
  split; [reflexivity|].
  exact (match_miss (H := Small.platform) Small.calm Small.cache
           (RRequest Small.missing) "/missing" Small.stored
           eq_refl eq_refl Hnone eq_refl).
Defined.



Lemma put_then_match_content_witness :
  JS.truthy (URL_pathname (Platform := Small.platform) (url Small.post)) = true
  /\ status_with_body (status Small.hello)
  /\ exists d w1 r w2,
       CloudflareR2Cache.put (H := Small.platform) Small.calm Small.cache
         Small.post Small.hello Small.empty = (Return d, w1)
       /\ CloudflareR2Cache.match_ Small.calm Small.cache
            (RString "/blog/post-1") w1 = (Return (Some r), w2)
       /\ response_body r = Some (arrayBuffer Small.hello)
       /\ Headers_get (response_headers r) "Content-Length"
          = Some (JS.Number_toString
                    (Z.of_nat (length (arrayBuffer Small.hello)))).
Proof.
  assert (status_with_body (status Small.hello)) as Hacc.
  { split; [cbn; lia | reflexivity]. }
  split; [reflexivity|]. split; [exact Hacc|].
  destruct (put_then_match_content (H := Small.platform) Small.calm Small.cache
              Small.post Small.hello (RString "/blog/post-1") Small.empty
              eq_refl eq_refl eq_refl eq_refl Hacc)
    as (d & w1 & r & w2 & Hput & Hmatch & Hbody & Hlen & _).
  exists d, w1, r, w2. auto.
Defined.

Lemma put_null_body_status_unmatchable_witness :
  JS.truthy (URL_pathname (Platform := Small.platform) (url Small.post)) = true
  /\ (200 <= status Small_more.no_content)%Z
  /\ null_body_status (status Small_more.no_content) = true
  /\ exists d w1 w2,
       CloudflareR2Cache.put (H := Small.platform) Small.calm Small.cache
         Small.post Small_more.no_content Small.empty = (Return d, w1)
       /\ CloudflareR2Cache.match_ Small.calm Small.cache
            (RString "/blog/post-1") w1
          = (Throw (TypeError "Response with null body status cannot have body"),
             w2).
Proof.
  assert (200 <= status Small_more.no_content)%Z as Hlow by (cbn; lia).
  split; [reflexivity|]. split; [exact Hlow|]. split; [reflexivity|].
  exact (put_null_body_status_unmatchable (H := Small.platform) Small.calm
           Small.cache Small.post Small_more.no_content (RString "/blog/post-1")
           Small.empty eq_refl eq_refl eq_refl eq_refl Hlow eq_refl).
Defined.

Lemma put_delete_match_misses_witness :
  (forall n, fault Small.calm n = false)
  /\ JS.truthy (URL_pathname (Platform := Small.platform) (url Small.post)) = true
  /\ exists d w1 gone w2 w3,
       CloudflareR2Cache.put (H := Small.platform) Small.calm Small.cache
         Small.post Small.hello Small.empty = (Return d, w1)
       /\ CloudflareR2Cache.delete Small.calm Small.cache (RRequest Small.post) w1
          = (Return gone, w2)
       /\ CloudflareR2Cache.match_ Small.calm Small.cache (RRequest Small.post) w2
          = (Return None, w3)
       /\ objects w3
          = delete (URL_pathname (Platform := Small.platform) (url Small.post))
              (objects Small.empty).
Proof.
  split; [intros n; reflexivity|]. split; [reflexivity|].
  exact (put_delete_match_misses (H := Small.platform) Small.calm Small.cache
           Small.post Small.hello Small.empty (fun _ => eq_refl) eq_refl).
Defined.
